(** * TilePrefetcher (src/prefetch.js): tile-set computation, template
      resolution and fetch scheduling, embedded as Rocq functions.

    Numbers.  The tile indices, the zoom, the ring count and the request cap
    are JavaScript numbers holding integers far below 2^53, where the
    arithmetic of the source is exact; they are modelled as [Z].  The
    floating-point projection of [_lon2tile] and [_lat2tile] is not part of
    the model: a viewport is given by the four floored tile coordinates that
    [_visibleTileRange] obtains from it.

    Loops.  A [for] loop with an integer counter becomes a list of counter
    values ([for_range]) or a recursion on its trip count; a [break] is an
    early return of the accumulator.

    Effects.  The prefetcher is a record that each handler maps to a new
    record, with the list of what it did to the outside (TileJSON lookups,
    tile fetches) and to its in-flight set.  In [Scheduler] a handler runs
    to its end before the next event is taken, an [async] method included;
    [Async] keeps the resolutions suspended at an [await] and lets the
    other handlers run in between.  The debug overlay and the console
    output are left out, but for the guard that [_ensureDebugLayers] may
    raise, which [Async] takes from its event.

    Collections.  A JavaScript [Set] that is iterated ([urls], [tmp],
    [parentSet], [neighborSet]) is a duplicate-free list in insertion order;
    the in-flight [Set], which is only tested and updated, is a [gset]; the
    TileJSON [Map] is a [gmap]. *)

From Stdlib Require Import ZArith List Lia Bool String Ascii.
From Stdlib Require Import DecimalString DecimalZ.
From stdpp Require Import gmap strings list.
Import ListNotations.

Open Scope Z_scope.

(* ===================================================================== *)
(** * Part I: definitions                                                *)
(* ===================================================================== *)

(** ** Coordinate math *)

Module Coord.

(** [2 ** z] *)
Definition pow2 (z : Z) : Z := 2 ^ z.

(** [wrapX = (x) => ((x % t) + t) % t]; JavaScript's [%] truncates towards
    zero, which is [Z.rem]. *)
Definition wrapX (t x : Z) : Z := Z.rem (Z.rem x t + t) t.

(** [clampY = (y) => Math.max(0, Math.min(t-1, y))] *)
Definition clampY (t y : Z) : Z := Z.max 0 (Z.min (t - 1) y).

(** The counter values of [for (let i = lo; i <= hi; i++)]. *)
Definition for_range (lo hi : Z) : list Z :=
  map (fun i : nat => lo + Z.of_nat i) (seq 0 (Z.to_nat (hi - lo + 1))).

(** [Math.floor(p/2)] on an integer [p]. *)
Definition floor_half (p : Z) : Z := p / 2.

(** [for (let k=0;k<d;k++){ px = Math.floor(px/2); ... }] on one axis. *)
Definition halve_chain (d : Z) (p : Z) : Z :=
  Nat.iter (Z.to_nat d) floor_half p.

(** [Math.max(0, Math.min(22, Math.floor(this.map.getZoom())))], from the
    floored zoom. *)
Definition clampZoom (floorZoom : Z) : Z := Z.max 0 (Z.min 22 floorZoom).

(** [v | 0] on an integer: ToInt32. *)
Definition toInt32 (v : Z) : Z :=
  let m := v mod 2 ^ 32 in if 2 ^ 31 <=? m then m - 2 ^ 32 else m.

End Coord.

(** ** Tiles *)

(** [{x, y}] as pushed by [_collectNeighborsTiles]. *)
Record xy : Type := mkXY { xy_x : Z; xy_y : Z }.

(** [{x, y, z}] as pushed by [_visibleTileRange]. *)
Record tile : Type := mkTile { tile_x : Z; tile_y : Z; tile_z : Z }.

(** The result of [_visibleTileRange]. *)
Record visible : Type := mkVisible {
  minX : Z; maxX : Z; minY : Z; maxY : Z;
  tilesAtZ : list tile
}.

(** [x>=minX && x<=maxX && y>=minY && y<=maxY] *)
Definition inside (minX minY maxX maxY x y : Z) : bool :=
  (minX <=? x) && (x <=? maxX) && (minY <=? y) && (y <=? maxY).

Module TileSet.
Import Coord.

(** [_collectNeighborsTiles(z, minX, minY, maxX, maxY, n)] *)
Definition _collectNeighborsTiles (z minX minY maxX maxY n : Z) : list xy :=
  let t := pow2 z in
  flat_map (fun x =>
    flat_map (fun y =>
      if inside minX minY maxX maxY x y then []
      else [mkXY (wrapX t x) (clampY t y)])
      (for_range (minY - n) (maxY + n)))
    (for_range (minX - n) (maxX + n)).

(** [_visibleTileRange(bounds, z)], from the four floored coordinates
    [vxMinX], [vxMaxX], [vyMinY], [vyMaxY] of the viewport edges. *)
Definition _visibleTileRange (vxMinX vxMaxX vyMinY vyMaxY z : Z) : visible :=
  let t := pow2 z in
  mkVisible vxMinX vxMaxX vyMinY vyMaxY
    (flat_map (fun x =>
       map (fun y => mkTile (wrapX t x) (clampY t y) z)
           (for_range vyMinY vyMaxY))
       (for_range vxMinX vxMaxX)).

End TileSet.

(** ** Strings, numbers in strings, tile URLs *)

Module Url.

(** A JavaScript number as it reaches a template: an integer, or [NaN]
    (the result of unary [+] on a string that is not a number). *)
Inductive num : Type :=
  | Int (n : Z)
  | NaN.

(** [String(n)]: the decimal digits, with a leading minus sign. *)
Definition num_to_string (n : num) : string :=
  match n with
  | Int v => NilZero.string_of_int (Z.to_int v)
  | NaN => "NaN"
  end.

(** Unary [+] on a string.  Decimal integer literals and the empty string
    are recognised; every other string yields [NaN].  The strings that reach
    it are the parts of a key, which are decimal integer literals
    ([key_parts] below). *)
Definition to_number (s : string) : num :=
  match s with
  | EmptyString => Int 0
  | _ => match NilZero.int_of_string s with
         | Some d => Int (Z.of_int d)
         | None => NaN
         end
  end.

(** [s.includes(pat)] *)
Fixpoint includes (pat s : string) : bool :=
  String.prefix pat s ||
  match s with
  | EmptyString => false
  | String _ s' => includes pat s'
  end.

Fixpoint drop_chars (n : nat) (s : string) : string :=
  match n, s with
  | O, _ => s
  | S n', String _ s' => drop_chars n' s'
  | S _, EmptyString => EmptyString
  end.

(** [s.replace(pat, rep)] with a string pattern: the first occurrence only
    (the replacements here are digit strings, without [$] patterns). *)
Fixpoint replace_first (pat rep s : string) : string :=
  if String.prefix pat s then String.append rep (drop_chars (String.length pat) s)
  else match s with
       | EmptyString => EmptyString
       | String c s' => String c (replace_first pat rep s')
       end.

(** [s.split('/')] *)
Fixpoint split_slash_aux (cur : string) (s : string) : list string :=
  match s with
  | EmptyString => [cur]
  | String c s' =>
      if Ascii.eqb c "/"%char then cur :: split_slash_aux EmptyString s'
      else split_slash_aux (String.append cur (String c EmptyString)) s'
  end.

Definition split_slash (s : string) : list string :=
  split_slash_aux EmptyString s.

(** A string without the separator of the keys. *)
Fixpoint no_slash (s : string) : Prop :=
  match s with
  | EmptyString => True
  | String c s' => Ascii.eqb c "/"%char = false /\ no_slash s'
  end.

(** A string without an opening brace. *)
Fixpoint no_open (s : string) : Prop :=
  match s with
  | EmptyString => True
  | String c s' => Ascii.eqb c "{"%char = false /\ no_open s'
  end.

(** The template literal [`${z}/${x}/${y}`]. *)
Definition tile_key (z x y : Z) : string :=
  String.append (num_to_string (Int z))
    (String.append "/" (String.append (num_to_string (Int x))
      (String.append "/" (num_to_string (Int y))))).

(** [_tileURL(tmpl, z, x, y)]; [None] is [null]. *)
Definition _tileURL (tmpl : string) (z x y : num) : option string :=
  if negb (includes "{z}" tmpl) || negb (includes "{x}" tmpl)
     || negb (includes "{y}" tmpl)
  then None
  else Some (replace_first "{y}" (num_to_string y)
              (replace_first "{x}" (num_to_string x)
                (replace_first "{z}" (num_to_string z) tmpl))).

(** The default [shouldPrefetch]:
    [/\.(pbf|mvt|png|jpg|jpeg)(\?|$)/.test(url)]. *)
Definition ext_here (s : string) : bool :=
  existsb (fun e =>
    String.prefix e s &&
    match drop_chars (String.length e) s with
    | EmptyString => true
    | String c _ => Ascii.eqb c "?"%char
    end) ["pbf"; "mvt"; "png"; "jpg"; "jpeg"]%string.

Fixpoint default_shouldPrefetch (url : string) : bool :=
  match url with
  | EmptyString => false
  | String c s' => (Ascii.eqb c "."%char && ext_here s') || default_shouldPrefetch s'
  end.

End Url.

(** ** Insertion-ordered sets and array helpers *)

(** [set.add(u)] on a [Set] of strings that is later iterated. *)
Definition set_add (u : string) (s : list string) : list string :=
  if decide (u ∈ s) then s else s ++ [u].

(** [arr.slice(0, end)] for an integer [end]: a negative [end] counts from
    the end of the array. *)
Definition slice0 {A : Type} (end_ : Z) (l : list A) : list A :=
  let len := Z.of_nat (length l) in
  let final := if end_ <? 0 then Z.max (len + end_) 0 else Z.min end_ len in
  firstn (Z.to_nat final) l.

(** ** Template resolver *)

Module Resolver.

(** An entry of a [tiles] array: a string, or a value of another type
    (dropped by [typeof u === 'string']). *)
Inductive jsval : Type :=
  | JString (s : string)
  | JOther.

(** A style source.  [src_tiles] is [Some l] when [Array.isArray(src.tiles)];
    [src_url] is [Some u] when [typeof src.url === 'string']. *)
Record source : Type := mkSource {
  src_tiles : option (list jsval);
  src_url : option string
}.

(** A TileJSON document; [tj_tiles] is [Some l] when
    [Array.isArray(tj.tiles)]. *)
Record tilejson : Type := mkTileJSON { tj_tiles : option (list jsval) }.

(** [_fetchTileJSON(url)] as seen by its caller: [None] when the awaited
    promise rejects (network error, [!res.ok], a body that is not JSON), or
    when the body is a value whose [.tiles] cannot be read; both end in the
    same [catch]. *)
Definition remote : Type := string -> option tilejson.

(** One remote lookup, for the source [id] at [url]; [ok] tells whether it
    returned a document. *)
Inductive lookup : Type := Lookup (id url : string) (ok : bool).


Definition lookup_ok (l : lookup) : bool :=
  match l with Lookup _ _ ok => ok end.

(** [templates.filter(u => typeof u === 'string')] *)
Fixpoint strings_of (l : list jsval) : list string :=
  match l with
  | [] => []
  | JString s :: l' => s :: strings_of l'
  | JOther :: l' => strings_of l'
  end.

(** The state threaded through the loop of [_resolveTemplates]: the TileJSON
    cache, the local [templates] array and the lookups made so far. *)
Record rstate : Type := mkRState {
  r_cache : gmap string (list jsval);
  r_templates : list jsval;
  r_lookups : list lookup
}.

(** The body of [for (const [id, src] of Object.entries(style.sources))]. *)
Definition resolve_source (fetchTileJSON : remote)
    (st : rstate) (entry : string * source) : rstate :=
  let '(id, src) := entry in
  match src_tiles src with
  | Some (t :: ts) =>
      mkRState (r_cache st) (r_templates st ++ t :: ts) (r_lookups st)
  | _ =>
      match src_url src with
      | Some (String c u) =>
          let url := String c u in
          match r_cache st !! id with
          | Some cached =>
              mkRState (r_cache st) (r_templates st ++ cached) (r_lookups st)
          | None =>
              match fetchTileJSON url with
              | Some tj =>
                  let t := match tj_tiles tj with Some l => l | None => [] end in
                  mkRState (<[id := t]> (r_cache st)) (r_templates st ++ t)
                           (r_lookups st ++ [Lookup id url true])
              | None =>
                  mkRState (r_cache st) (r_templates st)
                           (r_lookups st ++ [Lookup id url false])
              end
          end
      | _ => st
      end
  end.

(** The loop of [_resolveTemplates] over the entries of [style.sources], in
    the order of [Object.entries]. *)
Definition resolve_sources (fetchTileJSON : remote)
    (sources : list (string * source)) (st : rstate) : rstate :=
  fold_left (resolve_source fetchTileJSON) sources st.

(** [_resolveTemplates()]: from the style ([None] when there is no style or
    it has no [sources]: the early [return]) and the cache and template
    list of the prefetcher, the new cache, the new [_templates] and the
    lookups made. *)
Definition _resolveTemplates (style : option (list (string * source)))
    (fetchTileJSON : remote)
    (cache : gmap string (list jsval)) (_templates : list string)
  : gmap string (list jsval) * list string * list lookup :=
  match style with
  | None => (cache, _templates, [])
  | Some sources =>
      let st := resolve_sources fetchTileJSON sources (mkRState cache [] []) in
      (r_cache st, strings_of (r_templates st), r_lookups st)
  end.

(** The sources with a recorded answer after the lookups of [log], from the
    sources [known] before it: a lookup that returned a document records
    its source, a failed one records nothing. *)
Fixpoint learn (log : list lookup) (known : gset string) : gset string :=
  match log with
  | [] => known
  | Lookup id _ true :: rest => learn rest ({[id]} ∪ known)
  | Lookup _ _ false :: rest => learn rest known
  end.

(** Every lookup of [log] is for a source without a recorded answer. *)
Fixpoint unrecorded (known : gset string) (log : list lookup) : Prop :=
  match log with
  | [] => True
  | Lookup id u ok :: rest =>
      (id ∉ known) /\ unrecorded (learn [Lookup id u ok] known) rest
  end.

End Resolver.

(** ** Fetch scheduler *)

Module Scheduler.
Import Coord TileSet Url Resolver.

(** [this.opts] *)
Record opts : Type := mkOpts {
  neighbors : Z;
  zoomOutLevels : Z;
  debounceMs : Z;
  maxRequestsPerMove : Z;
  shouldPrefetch : string -> bool;
  debugFill : bool
}.

(** The defaults merged in by the constructor. *)
Definition default_opts : opts :=
  mkOpts 1 1 120 160 default_shouldPrefetch true.

(** What the map answers during one cycle: its style, the replies of the
    TileJSON endpoints, the floored zoom and the floored tile coordinates of
    the four edges of its bounds at the clamped zoom. *)
Record mapenv : Type := mkEnv {
  env_style : option (list (string * source));
  env_remote : remote;
  env_floorZoom : Z;
  env_vxMinX : Z;
  env_vxMaxX : Z;
  env_vyMinY : Z;
  env_vyMaxY : Z
}.

(** [const u = this._tileURL(tmpl, z, x, y); if (u) urls.add(u);] for every
    template. *)
Definition add_urls (templates : list string) (z x y : num)
    (urls : list string) : list string :=
  fold_left (fun urls tmpl =>
    match _tileURL tmpl z x y with
    | Some (String c u) => set_add (String c u) urls
    | _ => urls
    end) templates urls.

(** The neighbour block of [_prefetchNow]: [(neighborSet, urls)]. *)
Definition neighbor_phase (o : opts) (templates : list string) (z : Z)
    (v : visible) : list string * list string :=
  if 0 <? neighbors o then
    fold_left (fun '(neighborSet, urls) p =>
      (set_add (tile_key z (xy_x p) (xy_y p)) neighborSet,
       add_urls templates (Int z) (Int (xy_x p)) (Int (xy_y p)) urls))
      (_collectNeighborsTiles z (minX v) (minY v) (maxX v) (maxY v) (neighbors o))
      ([], [])
  else ([], []).

(** The skeleton of
    [for (let d = 1; d <= levels; d++) { const pz = z - d; if (pz < 0) break; ... }]:
    [k] iterations remain, the counter is at [d]. *)
Fixpoint for_depths {A : Type} (z : Z) (body : Z -> A -> A)
    (k : nat) (d : Z) (acc : A) : A :=
  match k with
  | O => acc
  | S k' =>
      let pz := z - d in
      if pz <? 0 then acc
      else for_depths z body k' (d + 1) (body d acc)
  end.

(** [nth] element of a destructured [split], [undefined] giving [NaN]. *)
Definition part (i : nat) (parts : list string) : num :=
  match nth_error parts i with
  | Some s => to_number s
  | None => NaN
  end.

(** The set [tmp] of one depth: the keys of the ancestors of [tilesAtZ]. *)
Definition depth_keys (z d : Z) (tiles : list tile) : list string :=
  fold_left (fun tmp t =>
    set_add (tile_key (z - d) (halve_chain d (tile_x t)) (halve_chain d (tile_y t))) tmp)
    tiles [].

(** The body of the depth loop past the [break]: on [(parentSet, urls)]. *)
Definition depth_body (templates : list string) (z : Z) (tiles : list tile)
    (d : Z) (acc : list string * list string) : list string * list string :=
  fold_left (fun '(parentSet, urls) key =>
    let parts := split_slash key in
    (set_add key parentSet,
     add_urls templates (part 0 parts) (part 1 parts) (part 2 parts) urls))
    (depth_keys z d tiles) acc.

(** [Math.max(0, this.opts.zoomOutLevels | 0)] *)
Definition levels_of (o : opts) : Z := Z.max 0 (toInt32 (zoomOutLevels o)).

(** The parent block of [_prefetchNow], continuing with the [urls] of the
    neighbour block: [(parentSet, urls)]. *)
Definition parent_phase (o : opts) (templates : list string) (z : Z)
    (v : visible) (urls : list string) : list string * list string :=
  for_depths z (depth_body templates z (tilesAtZ v))
    (Z.to_nat (levels_of o)) 1 ([], urls).

(** A fetch that was issued: its URL, with the in-flight set as [has(u)]
    found it. *)
Record request : Type := mkRequest {
  req_url : string;
  req_inflight : gset string
}.

(** [for (const u of list) { if (this._inflight.has(u)) continue;
     this._inflight.add(u); fetch(u)... }] *)
Fixpoint issue (urls : list string) (inflight : gset string)
  : gset string * list request :=
  match urls with
  | [] => (inflight, [])
  | u :: rest =>
      if decide (u ∈ inflight) then issue rest inflight
      else
        let '(inflight', reqs) := issue rest ({[u]} ∪ inflight) in
        (inflight', mkRequest u inflight :: reqs)
  end.

(** How a fetch settles. *)
Inductive outcome : Type := Fulfilled | Rejected.

(** [.catch(()=>{}).finally(()=>this._inflight.delete(u))]: the rejection is
    swallowed, then the URL leaves the set. *)
Definition settle (u : string) (o : outcome) (inflight : gset string)
  : gset string :=
  match o with
  | Fulfilled => inflight ∖ {[u]}
  | Rejected => inflight ∖ {[u]}
  end.

(** The prefetcher object: [_debounceTimer] is [true] while a timeout is
    pending; [on_moveend] and [on_styledata] tell whether the listeners are
    registered on the map. *)
Record prefetcher : Type := mkPrefetcher {
  _debounceTimer : bool;
  _inflight : gset string;
  _tilejsonCache : gmap string (list jsval);
  _templates : list string;
  _styledataGuard : bool;
  on_moveend : bool;
  on_styledata : bool
}.

(** What one run of [_prefetchNow] did. *)
Record report : Type := mkReport {
  rep_lookups : list lookup;
  rep_neighborSet : list string;
  rep_parentSet : list string;
  rep_list : list string;
  rep_requests : list request
}.

Definition set_templates (p : prefetcher)
    (cache : gmap string (list jsval)) (templates : list string) : prefetcher :=
  mkPrefetcher (_debounceTimer p) (_inflight p) cache templates
    (_styledataGuard p) (on_moveend p) (on_styledata p).

Definition set_inflight (p : prefetcher) (s : gset string) : prefetcher :=
  mkPrefetcher (_debounceTimer p) s (_tilejsonCache p) (_templates p)
    (_styledataGuard p) (on_moveend p) (on_styledata p).

Definition set_timer (p : prefetcher) (b : bool) : prefetcher :=
  mkPrefetcher b (_inflight p) (_tilejsonCache p) (_templates p)
    (_styledataGuard p) (on_moveend p) (on_styledata p).

(** [this._resolveTemplates()] on the prefetcher. *)
Definition resolve (e : mapenv) (p : prefetcher) : prefetcher * list lookup :=
  let '(c, t, l) :=
    _resolveTemplates (env_style e) (env_remote e) (_tilejsonCache p) (_templates p) in
  (set_templates p c t, l).

(** The [list] of [_prefetchNow]: the URLs of both blocks, filtered and
    capped, with the two key sets. *)
Definition candidates (o : opts) (templates : list string) (e : mapenv)
  : list string * list string * list string :=
  let z := clampZoom (env_floorZoom e) in
  let v := _visibleTileRange (env_vxMinX e) (env_vxMaxX e)
             (env_vyMinY e) (env_vyMaxY e) z in
  let '(neighborSet, urls1) := neighbor_phase o templates z v in
  let '(parentSet, urls) := parent_phase o templates z v urls1 in
  (neighborSet, parentSet,
   slice0 (maxRequestsPerMove o) (List.filter (shouldPrefetch o) urls)).


(** [_prefetchNow()] *)
Definition _prefetchNow (o : opts) (e : mapenv) (p : prefetcher)
  : prefetcher * report :=
  let '(p1, lk) :=
    match _templates p with
    | [] => resolve e p
    | _ :: _ => (p, [])
    end in
  match _templates p1 with
  | [] => (p1, mkReport lk [] [] [] [])
  | _ :: _ =>
      let '(neighborSet, parentSet, list) := candidates o (_templates p1) e in
      let '(inflight, reqs) := issue list (_inflight p1) in
      (set_inflight p1 inflight, mkReport lk neighborSet parentSet list reqs)
  end.

(** ** Lifecycle: the prefetcher as an event-driven machine *)

(** What the event loop delivers to the prefetcher. *)
Inductive event : Type :=
  | Bind (e : mapenv)                 (* [_bind()], style loaded *)
  | MoveEnd                           (* the map emits [moveend] *)
  | StyleData (e : mapenv)            (* the map emits [styledata] *)
  | AnimationFrame                    (* a [requestAnimationFrame] callback *)
  | TimerFires (e : mapenv)           (* the debounce timeout elapses *)
  | Settles (u : string) (r : outcome) (* the fetch of [u] settles *)
  | Destroy.                          (* [destroy()] *)

(** What the prefetcher does to the outside and to its in-flight set. *)
Inductive effect : Type :=
  | Looked (l : lookup)
  | Fetched (r : request)
  | Deleted (u : string)
  | Cleared.

(** The constructor, before the style is loaded. *)
Definition init : prefetcher :=
  mkPrefetcher false ∅ ∅ [] false false false.

(** [_onMoveEnd()]: [clearTimeout] of the pending timeout, then a new one. *)
Definition _onMoveEnd (p : prefetcher) : prefetcher := set_timer p true.

(** [destroy()]; [_debounceTimer] is left as it is. *)
Definition destroy (p : prefetcher) : prefetcher :=
  mkPrefetcher (_debounceTimer p) ∅ ∅ [] (_styledataGuard p) false false.

(** One event, its handler run to the end: every TileJSON fetch of a
    resolution has settled, with the answer of [env_remote], and what
    waited for the resolution has run before the next event is taken; the
    guard is raised by [_onStyleData] alone.  The resolutions that are
    still waiting when other handlers run, and the guard raised by
    [_ensureDebugLayers], are in [Async.step]. *)
Definition step (o : opts) (ev : event) (p : prefetcher)
  : prefetcher * list effect :=
  match ev with
  | Bind e =>
      let p0 := mkPrefetcher (_debounceTimer p) (_inflight p) (_tilejsonCache p)
                  (_templates p) (_styledataGuard p) true true in
      let '(p1, lk) := resolve e p0 in
      (_onMoveEnd p1, map Looked lk)
  | MoveEnd =>
      if on_moveend p then (_onMoveEnd p, []) else (p, [])
  | StyleData e =>
      if on_styledata p && negb (_styledataGuard p) then
        let p0 := mkPrefetcher (_debounceTimer p) (_inflight p) (_tilejsonCache p)
                    (_templates p) true (on_moveend p) (on_styledata p) in
        let '(p1, lk) := resolve e p0 in
        (p1, map Looked lk)
      else (p, [])
  | AnimationFrame =>
      (mkPrefetcher (_debounceTimer p) (_inflight p) (_tilejsonCache p)
         (_templates p) false (on_moveend p) (on_styledata p), [])
  | TimerFires e =>
      if _debounceTimer p then
        let '(p1, r) := _prefetchNow o e (set_timer p false) in
        (p1, map Looked (rep_lookups r) ++ map Fetched (rep_requests r))
      else (p, [])
  | Settles u r =>
      (set_inflight p (settle u r (_inflight p)), [Deleted u])
  | Destroy => (destroy p, [Cleared])
  end.

(** A run of the machine, with the effects in order. *)
Fixpoint run (o : opts) (evs : list event) (p : prefetcher)
  : prefetcher * list effect :=
  match evs with
  | [] => (p, [])
  | ev :: rest =>
      let '(p1, l1) := step o ev p in
      let '(p2, l2) := run o rest p1 in
      (p2, l1 ++ l2)
  end.

(** The in-flight set as the effects of a log (oldest first) leave it. *)
Fixpoint replay (log : list effect) (tracked : gset string) : gset string :=
  match log with
  | [] => tracked
  | Fetched r :: rest => replay rest ({[req_url r]} ∪ tracked)
  | Deleted u :: rest => replay rest (tracked ∖ {[u]})
  | Cleared :: rest => replay rest ∅
  | Looked _ :: rest => replay rest tracked
  end.

(** Every fetch of the log is for a URL that the effects before it have not
    left in the in-flight set. *)
Fixpoint fresh (tracked : gset string) (log : list effect) : Prop :=
  match log with
  | [] => True
  | Fetched r :: rest =>
      (req_url r ∉ tracked) /\ fresh ({[req_url r]} ∪ tracked) rest
  | Deleted u :: rest => fresh (tracked ∖ {[u]}) rest
  | Cleared :: rest => fresh ∅ rest
  | Looked _ :: rest => fresh tracked rest
  end.

(** The effects that take [u] out of the in-flight set. *)
Definition removes (u : string) (ef : effect) : Prop :=
  ef = Deleted u \/ ef = Cleared.

(** [key] is the key of a tile of the grid of zoom [z]. *)
Definition key_of_tile (z : Z) (key : string) : Prop :=
  exists x y,
    0 <= x <= pow2 z - 1 /\ 0 <= y <= pow2 z - 1 /\ key = tile_key z x y.

(** [u] is the URL that a template of [templates] gives to a tile of the
    grid of a zoom between 0 and [z]. *)
Definition url_of_tile (templates : list string) (z : Z) (u : string) : Prop :=
  exists tmpl z' x y,
    In tmpl templates /\ 0 <= z' <= z /\
    0 <= x <= pow2 z' - 1 /\ 0 <= y <= pow2 z' - 1 /\
    _tileURL tmpl (Int z') (Int x) (Int y) = Some u.

(** The fetches of [reqs] settle, one after the other, each with the
    outcome [how] gives it. *)
Definition settle_all (how : string -> outcome) (reqs : list request)
    (inflight : gset string) : gset string :=
  fold_left (fun s q => settle (req_url q) (how (req_url q)) s) reqs inflight.

(** The URLs fetched in a log. *)
Definition fetched_urls (log : list effect) : list string :=
  flat_map (fun ef => match ef with Fetched r => [req_url r] | _ => [] end) log.

End Scheduler.

(** ** The prefetcher with its suspended resolutions *)

(** [_resolveTemplates] is an [async] method: it runs up to the [await] of
    a TileJSON fetch and goes on when that fetch settles, and neither
    [_bind] nor [_onStyleData] waits for it.  Other handlers, [destroy]
    and further resolutions included, run in between.  This machine keeps
    every suspended resolution as a task and takes the settling of its
    fetch as an event of its own; the reply comes with that event.
    [Scheduler.step] is the view in which every fetch of a resolution has
    settled before the next event is taken ([finish_with] below). *)
Module Async.
Import Resolver Scheduler.

(** Where the loop of [_resolveTemplates] stands: through with all
    sources, or at the [await] for the source [id], with the sources still
    to visit and the local [templates] so far. *)
Inductive progress : Type :=
  | Finished (templates : list jsval)
  | Awaiting (id url : string) (rest : list (string * source))
             (templates : list jsval).

(** The loop of [_resolveTemplates] from the entries still to visit, up to
    its next [await]; the cache is read as it is now. *)
Fixpoint advance (cache : gmap string (list jsval))
    (entries : list (string * source)) (templates : list jsval) : progress :=
  match entries with
  | [] => Finished templates
  | (id, src) :: rest =>
      match src_tiles src with
      | Some (t :: ts) => advance cache rest (templates ++ t :: ts)
      | _ =>
          match src_url src with
          | Some (String c u) =>
              match cache !! id with
              | Some cached => advance cache rest (templates ++ cached)
              | None => Awaiting id (String c u) rest templates
              end
          | _ => advance cache rest templates
          end
      end
  end.

(** The loop after its [await]: with a document the cache entry is set and
    the tiles are pushed, in the [catch] nothing is done; then the loop
    goes on. *)
Definition after_reply (cache : gmap string (list jsval)) (id : string)
    (rest : list (string * source)) (templates : list jsval)
    (reply : option tilejson) : gmap string (list jsval) * progress :=
  match reply with
  | Some tj =>
      let t := match tj_tiles tj with Some l => l | None => [] end in
      (<[id := t]> cache, advance (<[id := t]> cache) rest (templates ++ t))
  | None => (cache, advance cache rest templates)
  end.

(** A resolution whose every fetch settles at once with the answer of
    [fetch]: the cache, the local templates and the lookups at its end. *)
Fixpoint finish_with (fetch : remote) (fuel : nat)
    (cache : gmap string (list jsval)) (pr : progress) (log : list lookup)
  : option (gmap string (list jsval) * list jsval * list lookup) :=
  match pr with
  | Finished t => Some (cache, t, log)
  | Awaiting id url rest t =>
      match fuel with
      | O => None
      | S fuel' =>
          let '(cache', pr') := after_reply cache id rest t (fetch url) in
          finish_with fetch fuel' cache' pr'
            (log ++ [Lookup id url
                       (match fetch url with Some _ => true | None => false end)])
      end
  end.

(** What waits for the end of a resolution: nothing ([_onStyleData]), the
    [.then(() => this._onMoveEnd())] of [_bind], or the rest of
    [_prefetchNow] after its [await]. *)
Inductive after : Type := ThenNothing | ThenMoveEnd | ThenCycle.

(** A resolution suspended at its [await]. *)
Record task : Type := mkTask {
  t_id : string;
  t_url : string;
  t_rest : list (string * source);
  t_templates : list jsval;
  t_after : after
}.

(** The prefetcher object, the resolutions in progress, and the number of
    [styledata] listeners of earlier calls of [_bind] that are still on the
    map: [_bind] overwrites [_onStyleDataBound], the one listener that
    [destroy] can take off. *)
Record machine : Type := mkMachine {
  m_obj : prefetcher;
  m_tasks : list task;
  m_stale : nat
}.

(** What reaches the network. *)
Inductive action : Type :=
  | LookupStarted (id url : string)
  | TileFetched (r : request).

Inductive event : Type :=
  | Bind (e : mapenv) (moved : bool)
      (* [_bind()]; [moved]: [_ensureDebugLayers] had a layer to move *)
  | MoveEnd
  | StyleData (e : mapenv)
  | AnimationFrame
  | TimerFires (e : mapenv)
  | LookupSettles (i : nat) (reply : option tilejson) (e : mapenv)
      (* the fetch awaited by the i-th task settles; [e] is the map then *)
  | TileSettles (u : string) (r : outcome)
  | Destroy.

(** [_prefetchNow] from [const z = ...] on, behind the check of
    [this._templates.length]. *)
Definition cycle (o : opts) (e : mapenv) (p : prefetcher)
  : prefetcher * list action :=
  match _templates p with
  | [] => (p, [])
  | _ :: _ =>
      let '(neighborSet, parentSet, list) := candidates o (_templates p) e in
      let '(inflight, reqs) := issue list (_inflight p) in
      (set_inflight p inflight, map TileFetched reqs)
  end.

Definition continue (o : opts) (k : after) (e : mapenv) (p : prefetcher)
  : prefetcher * list action :=
  match k with
  | ThenNothing => (p, [])
  | ThenMoveEnd => (_onMoveEnd p, [])
  | ThenCycle => cycle o e p
  end.

(** The resolution at [pr]: at its end [this._templates] is assigned and
    what waited for it runs; at an [await] the fetch is started and the
    resolution is kept as a task. *)
Definition drive (o : opts) (k : after) (e : mapenv) (pr : progress)
    (m : machine) : machine * list action :=
  match pr with
  | Finished t =>
      let '(p, acts) :=
        continue o k e
          (set_templates (m_obj m) (_tilejsonCache (m_obj m)) (strings_of t)) in
      (mkMachine p (m_tasks m) (m_stale m), acts)
  | Awaiting id url rest t =>
      (mkMachine (m_obj m) (m_tasks m ++ [mkTask id url rest t k]) (m_stale m),
       [LookupStarted id url])
  end.

(** A call of [_resolveTemplates()]; without a style it returns at once. *)
Definition start (o : opts) (k : after) (e : mapenv) (m : machine)
  : machine * list action :=
  match env_style e with
  | None =>
      let '(p, acts) := continue o k e (m_obj m) in
      (mkMachine p (m_tasks m) (m_stale m), acts)
  | Some entries =>
      drive o k e (advance (_tilejsonCache (m_obj m)) entries []) m
  end.

Fixpoint remove_nth {A : Type} (i : nat) (l : list A) : list A :=
  match i, l with
  | _, [] => []
  | O, _ :: l' => l'
  | S i', a :: l' => a :: remove_nth i' l'
  end.

Definition with_obj (m : machine) (p : prefetcher) : machine :=
  mkMachine p (m_tasks m) (m_stale m).

(** One event.  [_bind] registers a new bound [_onStyleData] each time,
    so the listener of an earlier [_bind] that [destroy] has not taken off
    stays on the map; [moveend] is registered with the one
    [this._onMoveEnd], which the map keeps once.  All [styledata] listeners
    share the guard: the first to run raises it and the others return. *)
Definition step (o : opts) (ev : event) (m : machine) : machine * list action :=
  let p := m_obj m in
  match ev with
  | Bind e moved =>
      start o ThenMoveEnd e
        (mkMachine
           (mkPrefetcher (_debounceTimer p) (_inflight p) (_tilejsonCache p)
              (_templates p) (_styledataGuard p || moved) true true)
           (m_tasks m)
           (if on_styledata p then S (m_stale m) else m_stale m))
  | MoveEnd =>
      if on_moveend p then (with_obj m (_onMoveEnd p), []) else (m, [])
  | StyleData e =>
      if (on_styledata p || negb (Nat.eqb (m_stale m) 0))
         && negb (_styledataGuard p) then
        start o ThenNothing e
          (with_obj m
             (mkPrefetcher (_debounceTimer p) (_inflight p) (_tilejsonCache p)
                (_templates p) true (on_moveend p) (on_styledata p)))
      else (m, [])
  | AnimationFrame =>
      (with_obj m
         (mkPrefetcher (_debounceTimer p) (_inflight p) (_tilejsonCache p)
            (_templates p) false (on_moveend p) (on_styledata p)), [])
  | TimerFires e =>
      if _debounceTimer p then
        match _templates p with
        | [] => start o ThenCycle e (with_obj m (set_timer p false))
        | _ :: _ =>
            let '(p1, acts) := cycle o e (set_timer p false) in
            (with_obj m p1, acts)
        end
      else (m, [])
  | LookupSettles i reply e =>
      match nth_error (m_tasks m) i with
      | None => (m, [])
      | Some t =>
          let '(cache, pr) :=
            after_reply (_tilejsonCache p) (t_id t) (t_rest t)
              (t_templates t) reply in
          drive o (t_after t) e pr
            (mkMachine (set_templates p cache (_templates p))
               (remove_nth i (m_tasks m)) (m_stale m))
      end
  | TileSettles u r =>
      (with_obj m (set_inflight p (settle u r (_inflight p))), [])
  | Destroy => (with_obj m (destroy p), [])
  end.

Fixpoint run (o : opts) (evs : list event) (m : machine)
  : machine * list action :=
  match evs with
  | [] => (m, [])
  | ev :: rest =>
      let '(m1, a1) := step o ev m in
      let '(m2, a2) := run o rest m1 in
      (m2, a1 ++ a2)
  end.

(** The fetches of the tasks settle one after the other, the oldest task
    first, with the answer of [env_remote e], until no task is left. *)
Fixpoint settle_now (o : opts) (e : mapenv) (fuel : nat) (m : machine)
  : machine * list action :=
  match fuel, m_tasks m with
  | S fuel', t :: _ =>
      let '(m1, a1) := step o (LookupSettles 0 (env_remote e (t_url t)) e) m in
      let '(m2, a2) := settle_now o e fuel' m1 in
      (m2, a1 ++ a2)
  | _, _ => (m, [])
  end.

(** The constructor, before the style is loaded. *)
Definition init : machine := mkMachine Scheduler.init [] 0.

(** The number of TileJSON fetches started for the source [id]. *)
Definition lookups_of (id : string) (acts : list action) : nat :=
  length (List.filter (fun a =>
    match a with
    | LookupStarted i _ => String.eqb i id
    | TileFetched _ => false
    end) acts).



End Async.

(** ** A sample map *)

(** One template, a style with a TileJSON source whose endpoint is
    unreachable and one whose endpoint answers, and a viewport that covers
    the tile (12, 1819, 1603). *)
Module Sample.
Import Resolver Scheduler.

Definition tmpl : string := "https://x/{z}/{x}/{y}.pbf".

Definition dead_url : string := "https://dead.example/tiles.json".

Definition live_url : string := "https://live.example/tiles.json".

Definition style : list (string * source) :=
  [("dead"%string, mkSource None (Some dead_url));
   ("live"%string, mkSource None (Some live_url))].

Definition net : remote :=
  fun url =>
    if String.eqb url live_url then Some (mkTileJSON (Some [JString tmpl]))
    else None.

Definition env : mapenv := mkEnv (Some style) net 12 1819 1819 1603 1603.

(** A bound prefetcher whose templates are resolved. *)
Definition warm : prefetcher :=
  mkPrefetcher false ∅ ∅ [tmpl] false true true.

Definition url_a : string := "https://x/12/1818/1602.pbf".

(** The same map with the source [live] alone, with the source [dead]
    alone, and the TileJSON document of [live]. *)
Definition live_env : mapenv :=
  mkEnv (Some [("live"%string, mkSource None (Some live_url))]) net
    12 1819 1819 1603 1603.

Definition dead_env : mapenv :=
  mkEnv (Some [("dead"%string, mkSource None (Some dead_url))]) net
    12 1819 1819 1603 1603.

Definition live_doc : tilejson := mkTileJSON (Some [JString tmpl]).

End Sample.

(* ===================================================================== *)
(** * Part II: properties                                                *)
(* ===================================================================== *)

(** ** Coordinate math *)

Section CoordFacts.
Import Coord.

Lemma in_for_range (lo hi x : Z) :
  In x (for_range lo hi) <-> lo <= x <= hi.
Proof.
  unfold for_range. rewrite in_map_iff. split.
  - intros (i & <- & Hi). apply in_seq in Hi. lia.
  - intros Hx. exists (Z.to_nat (x - lo)). split; [lia|].
    apply in_seq. lia.
Qed.

Lemma for_range_empty (lo hi : Z) : hi < lo -> for_range lo hi = [].
Proof.
  intros H. unfold for_range.
  replace (Z.to_nat (hi - lo + 1)) with O by lia. reflexivity.
Qed.

Lemma for_range_cons (lo hi : Z) :
  lo <= hi -> for_range lo hi = lo :: for_range (lo + 1) hi.
Proof.
  intros H. unfold for_range.
  replace (Z.to_nat (hi - lo + 1)) with (S (Z.to_nat (hi - (lo + 1) + 1))) by lia.
  cbn [seq map]. f_equal; [lia|].
  rewrite <- seq_shift, map_map. apply map_ext. intros i. lia.
Qed.

Lemma pow2_pos (z : Z) : 0 <= z -> 0 < pow2 z.
Proof. intros H. unfold pow2. apply Z.pow_pos_nonneg; lia. Qed.

(** On a positive modulus the double remainder of the source is the
    mathematical (floored) modulus. *)
Lemma wrapX_mod (t x : Z) : 0 < t -> wrapX t x = x mod t.
Proof.
  intros Ht. unfold wrapX.
  assert (Hr : Z.abs (Z.rem x t) < Z.abs t) by (apply Z.rem_bound_abs; lia).
  assert (Hq : x = t * (Z.quot x t) + Z.rem x t) by (apply Z.quot_rem'; lia).
  assert (H0 : 0 <= Z.rem x t + t) by lia.
  rewrite Z.rem_mod_nonneg by lia.
  rewrite <- (Z.mod_add x 1 t) by lia.
  rewrite Hq at 2.
  replace (t * (x ÷ t) + Z.rem x t + 1 * t)
    with (Z.rem x t + t + (x ÷ t) * t) by lia.
  now rewrite Z.mod_add by lia.
Qed.

Lemma wrapX_range (t x : Z) : 0 < t -> 0 <= wrapX t x <= t - 1.
Proof.
  intros Ht. rewrite wrapX_mod by assumption.
  pose proof (Z.mod_pos_bound x t Ht). lia.
Qed.

Lemma wrapX_id (t x : Z) : 0 <= x <= t - 1 -> wrapX t x = x.
Proof.
  intros H. rewrite wrapX_mod by lia. apply Z.mod_small. lia.
Qed.

Lemma clampY_range (t y : Z) : 0 < t -> 0 <= clampY t y <= t - 1.
Proof. intros Ht. unfold clampY. lia. Qed.

Lemma clampY_id (t y : Z) : 0 <= y <= t - 1 -> clampY t y = y.
Proof. intros H. unfold clampY. lia. Qed.

Lemma halve_chain_succ (k : nat) (p : Z) :
  Nat.iter (S k) floor_half p = floor_half (Nat.iter k floor_half p).
Proof. reflexivity. Qed.

(** Chained floored halving is one floored division, on every integer. *)
Lemma iter_floor_half (k : nat) (p : Z) :
  Nat.iter k floor_half p = p / 2 ^ Z.of_nat k.
Proof.
  induction k as [|k IH].
  - cbn. now rewrite Z.div_1_r.
  - rewrite halve_chain_succ, IH. unfold floor_half.
    rewrite Nat2Z.inj_succ, Z.pow_succ_r by lia.
    rewrite Z.div_div by lia.
    f_equal. lia.
Qed.

Lemma clampZoom_range (f : Z) : 0 <= clampZoom f <= 22.
Proof. unfold clampZoom. lia. Qed.

End CoordFacts.

(** ** Tile-set builder *)

Section TileSetFacts.
Import Coord TileSet.

(** Which indices [_collectNeighborsTiles] produces: the normalised images
    of the raw indices of the expanded rectangle that lie outside the
    original one. *)
Lemma in_collectNeighborsTiles (z x0 y0 x1 y1 n : Z) (p : xy) :
  In p (_collectNeighborsTiles z x0 y0 x1 y1 n) <->
  exists x y,
    x0 - n <= x <= x1 + n /\ y0 - n <= y <= y1 + n /\
    inside x0 y0 x1 y1 x y = false /\
    p = mkXY (wrapX (pow2 z) x) (clampY (pow2 z) y).
Proof.
  unfold _collectNeighborsTiles. rewrite in_flat_map. split.
  - intros (x & Hx & Hp). apply in_flat_map in Hp as (y & Hy & Hp).
    apply in_for_range in Hx. apply in_for_range in Hy.
    destruct (inside x0 y0 x1 y1 x y) eqn:Hin; [destruct Hp|].
    destruct Hp as [<-|[]]. exists x, y. auto.
  - intros (x & y & Hx & Hy & Hin & ->).
    exists x. split; [now apply in_for_range|].
    apply in_flat_map. exists y. split; [now apply in_for_range|].
    rewrite Hin. now left.
Qed.

Lemma inside_spec (x0 y0 x1 y1 x y : Z) :
  inside x0 y0 x1 y1 x y = true <-> x0 <= x <= x1 /\ y0 <= y <= y1.
Proof. unfold inside. rewrite !andb_true_iff, !Z.leb_le. lia. Qed.

Lemma collectNeighborsTiles_zero (z x0 y0 x1 y1 : Z) :
  _collectNeighborsTiles z x0 y0 x1 y1 0 = [].
Proof.
  destruct (_collectNeighborsTiles z x0 y0 x1 y1 0) as [|p l] eqn:E; [reflexivity|].
  assert (Hp : In p (_collectNeighborsTiles z x0 y0 x1 y1 0))
    by (rewrite E; now left).
  apply in_collectNeighborsTiles in Hp as (x & y & Hx & Hy & Hin & _).
  assert (inside x0 y0 x1 y1 x y = true) by (apply inside_spec; lia).
  congruence.
Qed.

(** A column of the ring is not wrapped onto a column of the rectangle as
    long as the rectangle widened by [n] columns is no wider than the
    world. *)
Lemma wrapX_off_range (t x0 x1 n x : Z) :
  0 < t -> x1 - x0 + 1 + n <= t ->
  x0 - n <= x <= x1 + n -> ~ (x0 <= x <= x1) ->
  ~ (x0 <= wrapX t x <= x1).
Proof.
  intros Ht Hw Hx Hout. rewrite wrapX_mod by assumption.
  pose proof (Z.div_mod x t ltac:(lia)) as Hq.
  pose proof (Z.mod_pos_bound x t Ht) as Hr.
  intros Hin.
  assert (Hc : x / t <= -1 \/ x / t = 0 \/ 1 <= x / t) by lia.
  destruct Hc as [Hc|[Hc|Hc]]; nia.
Qed.

(** A row of the ring is not clamped onto a row of the rectangle as long
    as the rectangle holds neither the first nor the last row of the grid. *)
Lemma clampY_off_range (t y0 y1 n y : Z) :
  1 <= y0 \/ y1 < 0 -> y1 <= t - 2 \/ t - 1 < y0 ->
  y0 - n <= y <= y1 + n -> ~ (y0 <= y <= y1) ->
  ~ (y0 <= clampY t y <= y1).
Proof. unfold clampY. lia. Qed.

(** C1, as the code has it.  For a zoom in [0,22] and [n >= 1], every index
    produced by [_collectNeighborsTiles] is the wrap/clamp image of a raw
    index of the expanded rectangle that is not inside the original
    rectangle.  The produced index itself is not inside the original
    rectangle whenever the rectangle widened by [n] columns is no wider
    than the world ([maxX - minX + 1 + n <= 2^z]) and the rectangle holds
    neither row 0 nor row [2^z - 1]; the rectangle may touch or cross the
    antimeridian.  For a rectangle inside the grid these conditions are
    also necessary: when one of them fails, some produced index is inside
    the rectangle.  For [n = 0] nothing is produced. *)
Theorem collectNeighborsTiles_ring (z x0 y0 x1 y1 : Z) :
  0 <= z <= 22 ->
  (forall n p, 1 <= n -> In p (_collectNeighborsTiles z x0 y0 x1 y1 n) ->
     exists x y,
       x0 - n <= x <= x1 + n /\ y0 - n <= y <= y1 + n /\
       inside x0 y0 x1 y1 x y = false /\
       p = mkXY (wrapX (pow2 z) x) (clampY (pow2 z) y)) /\
  (forall n p, 1 <= n ->
     x1 - x0 + 1 + n <= pow2 z ->
     1 <= y0 \/ y1 < 0 ->
     y1 <= pow2 z - 2 \/ pow2 z - 1 < y0 ->
     In p (_collectNeighborsTiles z x0 y0 x1 y1 n) ->
     inside x0 y0 x1 y1 (xy_x p) (xy_y p) = false) /\
  (forall n, 1 <= n ->
     0 <= x0 <= x1 -> x1 <= pow2 z - 1 ->
     0 <= y0 <= y1 -> y1 <= pow2 z - 1 ->
     pow2 z < x1 - x0 + 1 + n \/ y0 = 0 \/ y1 = pow2 z - 1 ->
     exists p, In p (_collectNeighborsTiles z x0 y0 x1 y1 n) /\
               inside x0 y0 x1 y1 (xy_x p) (xy_y p) = true) /\
  _collectNeighborsTiles z x0 y0 x1 y1 0 = [].
Proof.
  intros Hz. pose proof (pow2_pos z (proj1 Hz)) as Ht.
  split; [|split; [|split; [|apply collectNeighborsTiles_zero]]].
  - intros n p Hn Hp.
    apply in_collectNeighborsTiles in Hp as (x & y & Hx & Hy & Hin & ->).
    exists x, y. auto.
  - intros n p Hn Hw Hy0 Hy1 Hp.
    apply in_collectNeighborsTiles in Hp as (x & y & Hx & Hy & Hin & ->).
    cbn [xy_x xy_y].
    destruct (inside x0 y0 x1 y1 (wrapX (pow2 z) x) (clampY (pow2 z) y))
      eqn:E; [|reflexivity].
    exfalso. apply inside_spec in E as [Ex Ey].
    assert (Hraw : ~ (x0 <= x <= x1) \/ ~ (y0 <= y <= y1)).
    { destruct (Z_le_dec x0 x), (Z_le_dec x x1); try (left; lia).
      right. intros Hyy.
      assert (inside x0 y0 x1 y1 x y = true) by (apply inside_spec; lia).
      congruence. }
    destruct Hraw as [Hraw|Hraw].
    + exact (wrapX_off_range (pow2 z) x0 x1 n x Ht Hw Hx Hraw Ex).
    + exact (clampY_off_range (pow2 z) y0 y1 n y Hy0 Hy1 Hy Hraw Ey).
  - intros n Hn Hx0 Hx1 Hy0 Hy1 Hfail.
    assert (Hout : forall x y, ~ (x0 <= x <= x1 /\ y0 <= y <= y1) ->
              inside x0 y0 x1 y1 x y = false).
    { intros x y H. destruct (inside x0 y0 x1 y1 x y) eqn:E; [|reflexivity].
      apply inside_spec in E. tauto. }
    destruct Hfail as [Hw|[Hrow|Hrow]].
    + exists (mkXY (wrapX (pow2 z) (x0 + pow2 z)) (clampY (pow2 z) y0)). split.
      * apply in_collectNeighborsTiles. exists (x0 + pow2 z), y0.
        repeat split; try lia. apply Hout. lia.
      * cbn [xy_x xy_y]. apply inside_spec.
        rewrite wrapX_mod by assumption.
        replace (x0 + pow2 z) with (x0 + 1 * pow2 z) by lia.
        rewrite Z.mod_add, Z.mod_small by lia.
        rewrite clampY_id by lia. lia.
    + exists (mkXY (wrapX (pow2 z) x0) (clampY (pow2 z) (-1))). split.
      * apply in_collectNeighborsTiles. exists x0, (-1).
        repeat split; try lia. apply Hout. lia.
      * cbn [xy_x xy_y]. apply inside_spec.
        rewrite wrapX_id by lia. unfold clampY. lia.
    + exists (mkXY (wrapX (pow2 z) x0) (clampY (pow2 z) (pow2 z))). split.
      * apply in_collectNeighborsTiles. exists x0, (pow2 z).
        repeat split; try lia. apply Hout. lia.
      * cbn [xy_x xy_y]. apply inside_spec.
        rewrite wrapX_id by lia. unfold clampY. lia.
Qed.

(** At zoom 12, with the column 0 visible, the ring crosses the
    antimeridian: the raw column -1 wraps to 4095, outside the rectangle. *)
Lemma collectNeighborsTiles_ring_witness :
  0 <= 12 <= 22 /\ 1 <= 1 /\
  In (mkXY 4095 1602) (_collectNeighborsTiles 12 0 1603 0 1603 1) /\
  inside 0 1603 0 1603 (xy_x (mkXY 4095 1602)) (xy_y (mkXY 4095 1602)) = false /\
  (exists p, In p (_collectNeighborsTiles 12 0 0 0 1603 1) /\
             inside 0 0 0 1603 (xy_x p) (xy_y p) = true) /\
  _collectNeighborsTiles 12 0 1603 0 1603 0 = [].
Proof.
  assert (Hz : 0 <= 12 <= 22) by lia.
  assert (Hn : 1 <= 1) by lia.
  assert (Hp : In (mkXY 4095 1602) (_collectNeighborsTiles 12 0 1603 0 1603 1))
    by (vm_compute; auto).
  destruct (collectNeighborsTiles_ring 12 0 1603 0 1603 Hz)
    as (_ & Hsafe & _ & Hzero).
  destruct (collectNeighborsTiles_ring 12 0 0 0 1603 Hz)
    as (_ & _ & Hhit & _).
  split; [exact Hz|]. split; [exact Hn|]. split; [exact Hp|].
  split; [|split; [|exact Hzero]].
  - apply (Hsafe 1 (mkXY 4095 1602) Hn); try exact Hp;
      vm_compute; try (left; discriminate); discriminate.
  - apply (Hhit 1 Hn); vm_compute;
      try (split; discriminate); try discriminate.
    right. left. reflexivity.
Defined.

(** C1 as stated fails: at zoom 1 with the whole world visible (the range
    [0,1] x [0,1]) and one ring, the raw index (-1,-1) is normalised to
    (1,0), which lies inside the original rectangle. *)
Lemma collectNeighborsTiles_inside_after_wrap :
  0 <= 1 <= 22 /\ 1 <= 1 /\
  In (mkXY 1 0) (_collectNeighborsTiles 1 0 0 1 1 1) /\
  inside 0 0 1 1 (xy_x (mkXY 1 0)) (xy_y (mkXY 1 0)) = true.
Proof.
  split; [lia|]. split; [lia|]. split; [|reflexivity].
  vm_compute. auto.
Qed.

(** C5.  For a zoom in [0,22] and any floored viewport edges, every tile of
    [tilesAtZ] has [x] and [y] in [0, 2^z - 1] and carries the zoom [z]; at
    zoom 1 the raw [x = -1] wraps to 1 and the raw [y = -1] clamps to 0. *)
Theorem visibleTileRange_normalized :
  (forall z vxMinX vxMaxX vyMinY vyMaxY t,
     0 <= z <= 22 ->
     In t (tilesAtZ (_visibleTileRange vxMinX vxMaxX vyMinY vyMaxY z)) ->
     0 <= tile_x t <= pow2 z - 1 /\ 0 <= tile_y t <= pow2 z - 1 /\
     tile_z t = z) /\
  wrapX (pow2 1) (-1) = 1 /\ clampY (pow2 1) (-1) = 0 /\
  tilesAtZ (_visibleTileRange (-1) (-1) (-1) (-1) 1) = [mkTile 1 0 1].
Proof.
  split; [|repeat split; reflexivity].
  intros z a b c d t Hz Ht. cbn [_visibleTileRange tilesAtZ] in Ht.
  apply in_flat_map in Ht as (x & _ & Ht).
  apply in_map_iff in Ht as (y & <- & _). cbn [tile_x tile_y tile_z].
  pose proof (pow2_pos z (proj1 Hz)) as Hpos.
  pose proof (wrapX_range (pow2 z) x Hpos).
  pose proof (clampY_range (pow2 z) y Hpos). auto.
Qed.

Lemma visibleTileRange_normalized_witness :
  0 <= tile_x (mkTile 3 0 2) <= pow2 2 - 1 /\
  0 <= tile_y (mkTile 3 0 2) <= pow2 2 - 1 /\
  tile_z (mkTile 3 0 2) = 2.
Proof.
  apply (proj1 visibleTileRange_normalized 2 (-1) 4 (-3) 5 (mkTile 3 0 2)).
  - lia.
  - vm_compute. auto.
Defined.

Lemma depth_keys_single (z d x y : Z) :
  Scheduler.depth_keys z d [mkTile x y z] =
  [Url.tile_key (z - d) (halve_chain d x) (halve_chain d y)].
Proof. reflexivity. Qed.

(** C7.  For a non-negative index [x] and a depth [d >= 1], the chained
    halving of the ancestor loop is the single floored division by [2^d],
    so the ancestor key of a tile with non-negative indices is the one of
    the divided indices; the tile (5,10,10) has the depth-1 ancestor
    (4,5,5) and the depth-2 ancestor (3,2,2). *)
Theorem halve_chain_div :
  (forall x d, 0 <= x -> 1 <= d -> halve_chain d x = x / 2 ^ d) /\
  (forall z d x y, 0 <= x -> 0 <= y -> 1 <= d ->
     Scheduler.depth_keys z d [mkTile x y z] =
     [Url.tile_key (z - d) (x / 2 ^ d) (y / 2 ^ d)]) /\
  Scheduler.depth_keys 5 1 [mkTile 10 10 5] = [Url.tile_key 4 5 5] /\
  Scheduler.depth_keys 5 2 [mkTile 10 10 5] = [Url.tile_key 3 2 2].
Proof.
  assert (H : forall x d, 0 <= x -> 1 <= d -> halve_chain d x = x / 2 ^ d).
  { intros x d Hx Hd. unfold halve_chain. rewrite iter_floor_half.
    now rewrite Z2Nat.id by lia. }
  split; [exact H|]. split; [|split; reflexivity].
  intros z d x y Hx Hy Hd. rewrite depth_keys_single.
  now rewrite !H by assumption.
Qed.

Lemma halve_chain_div_witness :
  halve_chain 2 10 = 10 / 2 ^ 2 /\
  Scheduler.depth_keys 5 2 [mkTile 10 10 5] = [Url.tile_key (5 - 2) (10 / 2 ^ 2) (10 / 2 ^ 2)].
Proof.
  split.
  - apply (proj1 halve_chain_div 10 2); lia.
  - apply (proj1 (proj2 halve_chain_div) 5 2 10 10); lia.
Defined.

End TileSetFacts.

(** ** Keys: what is split and parsed is what was written *)

Section KeyFacts.
Import Url Scheduler.

Lemma append_assoc3 (a : string) (c : ascii) (s : string) :
  String.append (String.append a (String c EmptyString)) s = String.append a (String c s).
Proof.
  induction a as [|x a IH]; [reflexivity|].
  change (String x (String.append (String.append a (String c EmptyString)) s)
          = String x (String.append a (String c s))).
  now rewrite IH.
Qed.

Lemma append_empty_r (a : string) : String.append a EmptyString = a.
Proof.
  induction a as [|x a IH]; [reflexivity|].
  change (String x (String.append a EmptyString) = String x a).
  now rewrite IH.
Qed.

Lemma split_slash_aux_plain (s : string) :
  forall cur, no_slash s -> split_slash_aux cur s = [String.append cur s].
Proof.
  induction s as [|c s IH]; intros cur H; cbn [split_slash_aux].
  - now rewrite append_empty_r.
  - destruct H as [Hc Hs]. rewrite Hc, IH by assumption. now rewrite append_assoc3.
Qed.

Lemma split_slash_aux_sep (s rest : string) :
  forall cur, no_slash s ->
    split_slash_aux cur (String.append s (String "/" rest))
    = String.append cur s :: split_slash_aux EmptyString rest.
Proof.
  induction s as [|c s IH]; intros cur H.
  - change (String.append EmptyString (String "/" rest)) with (String "/" rest).
    cbn [split_slash_aux]. change (Ascii.eqb "/" "/") with true. cbn iota.
    now rewrite append_empty_r.
  - change (String.append (String c s) (String "/" rest))
      with (String c (String.append s (String "/" rest))).
    cbn [split_slash_aux].
    destruct H as [Hc Hs]. rewrite Hc, IH by assumption. now rewrite append_assoc3.
Qed.

Lemma no_slash_uint (d : Decimal.uint) : no_slash (NilEmpty.string_of_uint d).
Proof. induction d; cbn; auto. Qed.

Lemma no_slash_num (z : Z) : no_slash (num_to_string (Int z)).
Proof.
  unfold num_to_string, NilZero.string_of_int, NilZero.string_of_uint.
  destruct (Z.to_int z) as [d|d]; destruct d; cbn; auto using no_slash_uint;
  try (split; [reflexivity|]); auto using no_slash_uint;
  try (split; [reflexivity|]); apply no_slash_uint.
Qed.

Lemma to_int_not_nil (z : Z) :
  Z.to_int z <> Decimal.Pos Decimal.Nil /\
  Z.to_int z <> Decimal.Neg Decimal.Nil.
Proof.
  split; intros H; pose proof (of_to z) as E; rewrite H in E; cbn in E; subst z; discriminate.
Qed.

Lemma to_number_num (z : Z) : to_number (num_to_string (Int z)) = Int z.
Proof.
  unfold to_number, num_to_string.
  destruct (to_int_not_nil z) as [H1 H2].
  pose proof (NilZero.isi (Z.to_int z) H1 H2) as E.
  destruct (NilZero.string_of_int (Z.to_int z)) eqn:Es; [discriminate|].
  rewrite E. now rewrite of_to.
Qed.

Lemma key_parts (z x y : Z) :
  map to_number (split_slash (tile_key z x y)) = [Int z; Int x; Int y].
Proof.
  change (split_slash (tile_key z x y)) with
    (split_slash_aux EmptyString
       (String.append (num_to_string (Int z))
          (String "/" (String.append (num_to_string (Int x))
             (String "/" (num_to_string (Int y))))))).
  rewrite split_slash_aux_sep by apply no_slash_num.
  rewrite split_slash_aux_sep by apply no_slash_num.
  rewrite split_slash_aux_plain by apply no_slash_num.
  change (String.append EmptyString ?s) with s.
  cbn [map]. now rewrite !to_number_num.
Qed.

(** On the keys of the ancestor loop, the destructured and parsed parts are
    the three integers the key was built from. *)
Lemma part_key (z x y : Z) :
  part 0 (split_slash (tile_key z x y)) = Int z /\
  part 1 (split_slash (tile_key z x y)) = Int x /\
  part 2 (split_slash (tile_key z x y)) = Int y.
Proof.
  pose proof (key_parts z x y) as H. unfold part.
  destruct (split_slash (tile_key z x y)) as [|a [|b [|c [|d l]]]];
    try discriminate.
  injection H as Ha Hb Hc. cbn. auto.
Qed.

End KeyFacts.

(** ** Insertion-ordered sets *)

Lemma in_set_add (k u : string) (s : list string) :
  In k (set_add u s) <-> k = u \/ In k s.
Proof.
  unfold set_add. destruct (decide (u ∈ s)) as [Hin|Hin].
  - apply list_elem_of_In in Hin. split; [auto|]. intros [->|]; assumption.
  - rewrite in_app_iff. cbn. intuition congruence.
Qed.

Lemma in_slice0 {A : Type} (m : Z) (l : list A) (x : A) :
  In x (slice0 m l) -> In x l.
Proof.
  unfold slice0. intros H.
  rewrite <- (firstn_skipn
    (Z.to_nat (if m <? 0 then Z.max (Z.of_nat (length l) + m) 0
               else Z.min m (Z.of_nat (length l)))) l).
  apply in_or_app. now left.
Qed.

Example slice0_examples :
  slice0 2 [1; 2; 3] = [1; 2] /\ slice0 5 [1; 2; 3] = [1; 2; 3] /\
  slice0 0 [1; 2; 3] = [] /\ slice0 (-1) [1; 2; 3] = [1; 2].
Proof. repeat split; reflexivity. Qed.

Lemma slice0_length {A : Type} (m : Z) (l : list A) :
  0 <= m -> (Z.of_nat (length (slice0 m l)) <= m)%Z.
Proof.
  intros Hm. unfold slice0.
  destruct (m <? 0) eqn:E; [apply Z.ltb_lt in E; lia|].
  rewrite length_firstn. lia.
Qed.

(** ** The ancestor loop *)

Section ParentFacts.
Import Coord TileSet Url Scheduler.

(** The loop with its [break] runs its body on the depths from the counter
    up to the zoom or the last counter value, whichever is smaller. *)
Lemma for_depths_fold {A : Type} (z : Z) (body : Z -> A -> A) (k : nat) :
  forall (d : Z) (acc : A),
    for_depths z body k d acc =
    fold_left (fun a i => body i a)
      (for_range d (Z.min (d + Z.of_nat k - 1) z)) acc.
Proof.
  induction k as [|k IH]; intros d acc.
  - cbn [for_depths]. rewrite for_range_empty by lia. reflexivity.
  - cbn [for_depths]. destruct (z - d <? 0) eqn:E.
    + apply Z.ltb_lt in E. rewrite for_range_empty by lia. reflexivity.
    + apply Z.ltb_ge in E. rewrite for_range_cons by lia.
      cbn [fold_left]. rewrite IH. do 2 f_equal. lia.
Qed.

Lemma fold_left_snoc {A : Type} (ds acc : list A) :
  fold_left (fun ran d => ran ++ [d]) ds acc = acc ++ ds.
Proof.
  revert acc. induction ds as [|d ds IH]; intros acc; cbn [fold_left].
  - now rewrite app_nil_r.
  - rewrite IH, <- app_assoc. reflexivity.
Qed.

Lemma depth_keys_form (z d : Z) (tiles : list tile) (key : string) :
  In key (depth_keys z d tiles) ->
  exists t, In t tiles /\
    key = tile_key (z - d) (halve_chain d (tile_x t)) (halve_chain d (tile_y t)).
Proof.
  unfold depth_keys.
  assert (G : forall acc,
    In key (fold_left (fun tmp t =>
      set_add (tile_key (z - d) (halve_chain d (tile_x t))
                 (halve_chain d (tile_y t))) tmp) tiles acc) ->
    In key acc \/
    exists t, In t tiles /\
      key = tile_key (z - d) (halve_chain d (tile_x t)) (halve_chain d (tile_y t))).
  { induction tiles as [|t tiles IH]; intros acc H; [now left|].
    cbn [fold_left] in H. apply IH in H as [H|(t' & Ht' & ->)].
    - apply in_set_add in H as [->|H]; [|now left].
      right. exists t. split; [now left|reflexivity].
    - right. exists t'. split; [now right|reflexivity]. }
  intros H. apply G in H as [[]|H]. exact H.
Qed.

Lemma depth_body_parentSet (templates : list string) (z d : Z)
    (tiles : list tile) (acc : list string * list string) (key : string) :
  In key (fst (depth_body templates z tiles d acc)) ->
  In key (fst acc) \/ In key (depth_keys z d tiles).
Proof.
  unfold depth_body. generalize (depth_keys z d tiles) as ks.
  intros ks. revert acc.
  induction ks as [|k ks IH]; intros acc H; [now left|].
  cbn [fold_left] in H. apply IH in H as [H|H]; [|right; now right].
  destruct acc as [ps us]. cbn [fst] in H.
  apply in_set_add in H as [->|H]; [right; now left|now left].
Qed.



End ParentFacts.

(** ** The in-flight set *)

Section InflightFacts.
Import Scheduler.

Lemma issue_inflight (l : list string) :
  forall (S : gset string) (v : string),
    v ∈ (issue l S).1 <-> v ∈ S \/ In v l.
Proof.
  induction l as [|u l IH]; intros S v; cbn [issue].
  - cbn. tauto.
  - destruct (decide (u ∈ S)) as [Hin|Hin].
    + rewrite IH. cbn. split; [tauto|]. intros [H|[<-|H]]; auto.
    + specialize (IH ({[u]} ∪ S) v).
      destruct (issue l ({[u]} ∪ S)) as [S' reqs]. cbn in *.
      rewrite IH, elem_of_union, elem_of_singleton.
      split; [intros [[->|H]|H]|intros [H|[<-|H]]]; auto.
Qed.

Lemma issue_requests (l : list string) :
  forall (S : gset string) (q : request),
    In q (issue l S).2 ->
    (req_url q ∉ req_inflight q) /\ (S ⊆ req_inflight q) /\ In (req_url q) l.
Proof.
  induction l as [|u l IH]; intros S q Hq; cbn [issue] in Hq.
  - destruct Hq.
  - destruct (decide (u ∈ S)) as [Hin|Hin].
    + apply IH in Hq as (H1 & H2 & H3). auto using in_cons.
    + specialize (IH ({[u]} ∪ S) q).
      destruct (issue l ({[u]} ∪ S)) as [S' reqs]. cbn in *.
      destruct Hq as [<-|Hq]; cbn.
      * split; [exact Hin|]. split; [set_solver|]. now left.
      * apply IH in Hq as (H1 & H2 & H3).
        split; [exact H1|]. split; [clear -H2; set_solver|]. now right.
Qed.

Lemma issue_length (l : list string) :
  forall S : gset string, (length (issue l S).2 <= length l)%nat.
Proof.
  induction l as [|u l IH]; intros S; cbn [issue].
  - cbn. lia.
  - destruct (decide (u ∈ S)) as [Hin|Hin].
    + specialize (IH S). cbn. lia.
    + specialize (IH ({[u]} ∪ S)).
      destruct (issue l ({[u]} ∪ S)) as [S' reqs]. cbn in *. lia.
Qed.

Lemma issue_all_inflight (l : list string) (S : gset string) :
  (forall u, In u l -> u ∈ S) -> issue l S = (S, []).
Proof.
  induction l as [|u l IH]; intros H; cbn [issue]; [reflexivity|].
  destruct (decide (u ∈ S)) as [Hin|Hin].
  - apply IH. intros v Hv. apply H. now right.
  - exfalso. apply Hin, H. now left.
Qed.

Lemma issue_fresh (l : list string) :
  forall S : gset string,
    fresh S (map Fetched (issue l S).2) /\
    replay (map Fetched (issue l S).2) S = (issue l S).1.
Proof.
  induction l as [|u l IH]; intros S; cbn [issue].
  - cbn. auto.
  - destruct (decide (u ∈ S)) as [Hin|Hin]; [apply IH|].
    specialize (IH ({[u]} ∪ S)).
    destruct (issue l ({[u]} ∪ S)) as [S' reqs]. cbn in *.
    destruct IH as [IH1 IH2]. auto.
Qed.

Lemma replay_app (l1 l2 : list effect) :
  forall T : gset string, replay (l1 ++ l2) T = replay l2 (replay l1 T).
Proof.
  induction l1 as [|ef l1 IH]; intros T; [reflexivity|].
  destruct ef; cbn [app replay]; apply IH.
Qed.

Lemma fresh_app (l1 l2 : list effect) :
  forall T : gset string,
    fresh T (l1 ++ l2) <-> fresh T l1 /\ fresh (replay l1 T) l2.
Proof.
  induction l1 as [|ef l1 IH]; intros T; [cbn; tauto|].
  destruct ef; cbn [app replay fresh]; rewrite ?IH; tauto.
Qed.

Lemma replay_looked (lk : list Resolver.lookup) (T : gset string) :
  replay (map Looked lk) T = T.
Proof. induction lk as [|l lk IH]; [reflexivity|exact IH]. Qed.

Lemma fresh_looked (lk : list Resolver.lookup) (T : gset string) :
  fresh T (map Looked lk).
Proof. induction lk as [|l lk IH]; [exact I|exact IH]. Qed.

(** A URL stays in the replayed set unless an effect removes it. *)
Lemma replay_keeps (u : string) (l : list effect) :
  forall T : gset string,
    u ∈ T -> u ∈ replay l T \/ exists ef, In ef l /\ removes u ef.
Proof.
  induction l as [|ef l IH]; intros T HT; [now left|].
  destruct ef as [lk|r|v|]; cbn [replay].
  - destruct (IH T HT) as [H|(ef & H1 & H2)]; [now left|].
    right. exists ef. split; [now right|exact H2].
  - destruct (IH ({[req_url r]} ∪ T)) as [H|(ef & H1 & H2)];
      [set_solver|now left|].
    right. exists ef. split; [now right|exact H2].
  - destruct (decide (v = u)) as [->|Hne].
    + right. exists (Deleted u). split; [now left|now left].
    + destruct (IH (T ∖ {[v]})) as [H|(ef & H1 & H2)];
        [set_solver|now left|].
      right. exists ef. split; [now right|exact H2].
  - right. exists Cleared. split; [now left|now right].
Qed.

Lemma resolve_inflight (e : mapenv) (p : prefetcher) :
  _inflight (resolve e p).1 = _inflight p.
Proof.
  unfold resolve.
  destruct (Resolver._resolveTemplates _ _ _ _) as [[c t] l]. reflexivity.
Qed.

Lemma prefetchNow_effects (o : opts) (e : mapenv) (p : prefetcher) :
  let r := (_prefetchNow o e p).2 in
  fresh (_inflight p) (map Looked (rep_lookups r) ++ map Fetched (rep_requests r)) /\
  replay (map Looked (rep_lookups r) ++ map Fetched (rep_requests r)) (_inflight p)
  = _inflight (_prefetchNow o e p).1.
Proof.
  unfold _prefetchNow.
  assert (H : exists p1 lk,
    match _templates p with [] => resolve e p | _ :: _ => (p, []) end = (p1, lk)
    /\ _inflight p1 = _inflight p).
  { destruct (_templates p).
    - exists (resolve e p).1, (resolve e p).2.
      split; [now destruct (resolve e p)|apply resolve_inflight].
    - exists p, []. auto. }
  destruct H as (p1 & lk & -> & Hin).
  destruct (_templates p1) as [|t ts].
  - cbn. rewrite app_nil_r, replay_looked, Hin. split; [|reflexivity].
    apply fresh_looked.
  - destruct (candidates o (t :: ts) e) as [[ns ps] cands].
    pose proof (issue_fresh cands (_inflight p1)) as [Hf Hr].
    destruct (issue cands (_inflight p1)) as [S' reqs]. cbn in *.
    rewrite fresh_app, replay_app, replay_looked, <- Hin.
    split; [split; [apply fresh_looked|exact Hf]|exact Hr].
Qed.

Lemma step_effects (o : opts) (ev : event) (p : prefetcher) :
  fresh (_inflight p) (step o ev p).2 /\
  replay (step o ev p).2 (_inflight p) = _inflight (step o ev p).1.
Proof.
  destruct ev as [e| |e| |e|u r|]; cbn [step].
  - pose proof (resolve_inflight e
      (mkPrefetcher (_debounceTimer p) (_inflight p) (_tilejsonCache p)
         (_templates p) (_styledataGuard p) true true)) as H.
    destruct (resolve e _) as [p1 lk]. cbn in *.
    rewrite replay_looked. split; [apply fresh_looked|now rewrite H].
  - destruct (on_moveend p); cbn; auto.
  - destruct (on_styledata p && negb (_styledataGuard p)); [|cbn; auto].
    pose proof (resolve_inflight e
      (mkPrefetcher (_debounceTimer p) (_inflight p) (_tilejsonCache p)
         (_templates p) true (on_moveend p) (on_styledata p))) as H.
    destruct (resolve e _) as [p1 lk]. cbn in *.
    rewrite replay_looked. split; [apply fresh_looked|now rewrite H].
  - cbn. auto.
  - destruct (_debounceTimer p); [|cbn; auto].
    pose proof (prefetchNow_effects o e (set_timer p false)) as H.
    destruct (_prefetchNow o e (set_timer p false)) as [p1 r]. exact H.
  - cbn. split; [exact I|]. destruct r; reflexivity.
  - cbn. auto.
Qed.

Lemma run_effects (o : opts) (evs : list event) :
  forall p : prefetcher,
    fresh (_inflight p) (run o evs p).2 /\
    replay (run o evs p).2 (_inflight p) = _inflight (run o evs p).1.
Proof.
  induction evs as [|ev evs IH]; intros p; cbn [run]; [cbn; auto|].
  pose proof (step_effects o ev p) as [Hf Hr].
  destruct (step o ev p) as [p1 l1]. specialize (IH p1).
  destruct (run o evs p1) as [p2 l2]. cbn in *.
  destruct IH as [IHf IHr].
  rewrite fresh_app, replay_app, Hr. auto.
Qed.

End InflightFacts.

(** ** The prefetch cycle *)

Section CycleFacts.
Import Scheduler.

(** C2.  In the issuing loop, every fetch is for a URL that [has] did not
    find in the in-flight set, the URL is in the set once the loop has
    issued it, and a URL that was in the set when the loop started is not
    fetched.  A settled fetch leaves the set whether it was fulfilled or
    rejected, and no other URL does.  Over any run of the prefetcher, from
    any state, two fetches of one URL are separated by an effect that took
    the URL out of the set (the settling of the first fetch, or the clearing
    of the set by [destroy]). *)
Theorem inflight_never_refetched :
  (forall (l : list string) (S : gset string) (q : request),
     In q (issue l S).2 ->
     (req_url q ∉ req_inflight q) /\ (S ⊆ req_inflight q) /\
     (req_url q ∉ S) /\ (req_url q ∈ (issue l S).1)) /\
  (forall (u : string) (r : outcome) (S : gset string),
     (u ∉ settle u r S) /\
     (forall v, v ≠ u -> v ∈ settle u r S <-> v ∈ S)) /\
  (forall (o : opts) (evs : list event) (p : prefetcher)
          (l1 l2 l3 : list effect) (r1 r2 : request),
     (run o evs p).2 = l1 ++ Fetched r1 :: l2 ++ Fetched r2 :: l3 ->
     req_url r1 = req_url r2 ->
     exists ef, In ef l2 /\ removes (req_url r1) ef).
Proof.
  split; [|split].
  - intros l S q Hq.
    pose proof (issue_requests l S q Hq) as (H1 & H2 & H3).
    split; [exact H1|]. split; [exact H2|]. split.
    + intros HS. apply H1, H2, HS.
    + apply issue_inflight. now right.
  - intros u r S. split.
    + destruct r; cbn; rewrite elem_of_difference, elem_of_singleton; tauto.
    + intros v Hv.
      destruct r; cbn; rewrite elem_of_difference, elem_of_singleton; tauto.
  - intros o evs p l1 l2 l3 r1 r2 Hlog Hurl.
    pose proof (run_effects o evs p) as [Hf _]. rewrite Hlog in Hf.
    apply fresh_app in Hf as [_ Hf]. cbn [fresh] in Hf.
    destruct Hf as [_ Hf]. apply fresh_app in Hf as [_ Hf].
    cbn [fresh] in Hf. destruct Hf as [Hnot _].
    destruct (replay_keeps (req_url r1) l2
                ({[req_url r1]} ∪ replay l1 (_inflight p))) as [H|H].
    + set_solver.
    + exfalso. apply Hnot. now rewrite <- Hurl.
    + exact H.
Qed.

Lemma candidates_filtered (o : opts) (templates : list string) (e : mapenv) :
  exists urls,
    (candidates o templates e).2 =
    slice0 (maxRequestsPerMove o) (List.filter (shouldPrefetch o) urls).
Proof.
  unfold candidates.
  destruct (neighbor_phase _ _ _ _) as [ns urls1].
  destruct (parent_phase _ _ _ _ _) as [ps urls].
  exists urls. reflexivity.
Qed.

(** What a cycle that starts with a non-empty template list does. *)
Lemma prefetchNow_with_templates (o : opts) (e : mapenv) (p : prefetcher) :
  _templates p <> [] ->
  _prefetchNow o e p =
  (set_inflight p (issue (candidates o (_templates p) e).2 (_inflight p)).1,
   mkReport [] (candidates o (_templates p) e).1.1
     (candidates o (_templates p) e).1.2
     (candidates o (_templates p) e).2
     (issue (candidates o (_templates p) e).2 (_inflight p)).2).
Proof.
  intros Ht. unfold _prefetchNow.
  destruct (_templates p) as [|t ts] eqn:E; [congruence|].
  rewrite E.
  destruct (candidates o (t :: ts) e) as [[ns ps] cands]. cbn [fst snd].
  destruct (issue cands (_inflight p)) as [S' reqs]. reflexivity.
Qed.

Lemma prefetchNow_requests_in_list (o : opts) (e : mapenv) (p : prefetcher)
    (q : request) :
  In q (rep_requests (_prefetchNow o e p).2) ->
  In (req_url q) (rep_list (_prefetchNow o e p).2) /\
  req_url q ∉ _inflight (match _templates p with
                         | [] => (resolve e p).1
                         | _ :: _ => p
                         end).
Proof.
  unfold _prefetchNow.
  destruct (match _templates p with [] => resolve e p | _ :: _ => (p, []) end)
    as [p1 lk] eqn:E1.
  assert (Hp1 : p1 = match _templates p with
                     | [] => (resolve e p).1 | _ :: _ => p end).
  { destruct (_templates p); [now rewrite E1|congruence]. }
  rewrite <- Hp1.
  destruct (_templates p1) as [|t ts]; [intros []|].
  destruct (candidates o (t :: ts) e) as [[ns ps] cands].
  pose proof (issue_requests cands (_inflight p1) q) as H.
  destruct (issue cands (_inflight p1)) as [S' reqs]. cbn in *.
  intros Hq. destruct (H Hq) as (H1 & H2 & H3). split; [exact H3|].
  intros HS. apply H1, H2, HS.
Qed.

(** What a cycle that ends with a non-empty template list reports: the
    candidates of that list, all of them in the in-flight set afterwards. *)
Lemma prefetchNow_report (o : opts) (e : mapenv) (p : prefetcher) :
  _templates (_prefetchNow o e p).1 <> [] ->
  rep_list (_prefetchNow o e p).2
  = (candidates o (_templates (_prefetchNow o e p).1) e).2 /\
  rep_neighborSet (_prefetchNow o e p).2
  = (candidates o (_templates (_prefetchNow o e p).1) e).1.1 /\
  rep_parentSet (_prefetchNow o e p).2
  = (candidates o (_templates (_prefetchNow o e p).1) e).1.2 /\
  (forall u, In u (rep_list (_prefetchNow o e p).2) ->
     u ∈ _inflight (_prefetchNow o e p).1).
Proof.
  unfold _prefetchNow.
  destruct (match _templates p with [] => resolve e p | _ :: _ => (p, []) end)
    as [p1 lk].
  destruct (_templates p1) as [|t ts] eqn:E.
  - cbn [fst]. congruence.
  - destruct (candidates o (t :: ts) e) as [[ns ps] cands] eqn:Ec.
    pose proof (issue_inflight cands (_inflight p1)) as Hin.
    destruct (issue cands (_inflight p1)) as [S' reqs]. cbn in *.
    rewrite E, Ec. intros _. cbn.
    repeat (split; [reflexivity|]). intros u Hu. apply Hin. now right.
Qed.

(** C3.  Once a cycle has ended with a non-empty template list, the cycle
    run again on the same map state right after computes the same candidate
    list and the same key sets, issues no fetch and leaves the in-flight
    set and the template list as the first run left them.  Run from any
    state with that template list, whatever has settled meanwhile, it
    computes the same candidate list and issues no fetch for a URL that is
    in the in-flight set. *)
Theorem prefetchNow_twice (o : opts) (e : mapenv) (p : prefetcher) :
  _templates (_prefetchNow o e p).1 <> [] ->
  rep_list (_prefetchNow o e (_prefetchNow o e p).1).2
    = rep_list (_prefetchNow o e p).2 /\
  rep_neighborSet (_prefetchNow o e (_prefetchNow o e p).1).2
    = rep_neighborSet (_prefetchNow o e p).2 /\
  rep_parentSet (_prefetchNow o e (_prefetchNow o e p).1).2
    = rep_parentSet (_prefetchNow o e p).2 /\
  rep_requests (_prefetchNow o e (_prefetchNow o e p).1).2 = [] /\
  _inflight (_prefetchNow o e (_prefetchNow o e p).1).1
    = _inflight (_prefetchNow o e p).1 /\
  _templates (_prefetchNow o e (_prefetchNow o e p).1).1
    = _templates (_prefetchNow o e p).1 /\
  (forall p' : prefetcher,
     _templates p' = _templates (_prefetchNow o e p).1 ->
     rep_list (_prefetchNow o e p').2 = rep_list (_prefetchNow o e p).2 /\
     (forall q, In q (rep_requests (_prefetchNow o e p').2) ->
        req_url q ∉ _inflight p')).
Proof.
  intros Ht.
  destruct (prefetchNow_report o e p Ht) as (Hl & Hn & Hp & Hin).
  rewrite Hl, Hn, Hp. rewrite Hl in Hin.
  set (p1 := (_prefetchNow o e p).1) in *.
  rewrite (prefetchNow_with_templates o e p1 Ht).
  cbn [fst snd rep_list rep_neighborSet rep_parentSet rep_requests].
  rewrite (issue_all_inflight _ _ Hin). cbn [fst snd].
  repeat (split; [reflexivity|]).
  intros p' Ht'.
  assert (Ht2 : _templates p' <> []) by congruence.
  split.
  - rewrite (prefetchNow_with_templates o e p' Ht2). cbn [snd rep_list].
    now rewrite Ht'.
  - intros q Hq. apply prefetchNow_requests_in_list in Hq as [_ Hq].
    destruct (_templates p'); [congruence|exact Hq].
Qed.

End CycleFacts.

(** ** Template resolver *)

Section ResolverFacts.
Import Resolver.

Lemma learn_app (l1 l2 : list lookup) :
  forall K : gset string, learn (l1 ++ l2) K = learn l2 (learn l1 K).
Proof.
  induction l1 as [|[id u [|]] l1 IH]; intros K; cbn [app learn]; auto.
Qed.

Lemma unrecorded_app (l1 l2 : list lookup) :
  forall K : gset string,
    unrecorded K (l1 ++ l2) <-> unrecorded K l1 /\ unrecorded (learn l1 K) l2.
Proof.
  induction l1 as [|[id u ok] l1 IH]; intros K; [cbn; tauto|].
  cbn [app unrecorded]. rewrite IH.
  destruct ok; cbn [learn]; tauto.
Qed.



(** One source: the lookups made are for sources not in the cache, and the
    cache records exactly the lookups that returned a document. *)
Lemma resolve_source_lookups (fetch : remote) (st : rstate)
    (entry : string * source) :
  exists new,
    r_lookups (resolve_source fetch st entry) = r_lookups st ++ new /\
    unrecorded (dom (r_cache st)) new /\
    dom (r_cache (resolve_source fetch st entry)) = learn new (dom (r_cache st)).
Proof.
  destruct entry as [id src]. unfold resolve_source.
  assert (Hnone : exists new, r_lookups st = r_lookups st ++ new /\
            unrecorded (dom (r_cache st)) new /\
            dom (r_cache st) = learn new (dom (r_cache st))).
  { exists []. rewrite app_nil_r. cbn. auto. }
  destruct (src_tiles src) as [[|t ts]|]; cbn [r_lookups r_cache];
    try exact Hnone;
    (destruct (src_url src) as [[|c u]|]; try exact Hnone;
     destruct (r_cache st !! id) as [cached|] eqn:Hc;
       [exact Hnone|];
     assert (Hid : id ∉ dom (r_cache st)) by (now apply not_elem_of_dom);
     destruct (fetch (String c u)) as [tj|]; cbn [r_lookups r_cache];
       [exists [Lookup id (String c u) true]
       |exists [Lookup id (String c u) false]];
     cbn [unrecorded learn]; rewrite ?dom_insert_L; auto).
Qed.

Lemma resolve_sources_lookups (fetch : remote)
    (sources : list (string * source)) :
  forall st : rstate,
    exists new,
      r_lookups (resolve_sources fetch sources st) = r_lookups st ++ new /\
      unrecorded (dom (r_cache st)) new /\
      dom (r_cache (resolve_sources fetch sources st))
      = learn new (dom (r_cache st)).
Proof.
  unfold resolve_sources.
  induction sources as [|entry sources IH]; intros st; cbn [fold_left].
  - exists []. rewrite app_nil_r. cbn. auto.
  - destruct (resolve_source_lookups fetch st entry) as (n1 & L1 & U1 & D1).
    destruct (IH (resolve_source fetch st entry)) as (n2 & L2 & U2 & D2).
    exists (n1 ++ n2). rewrite L2, L1, <- app_assoc.
    split; [reflexivity|]. rewrite unrecorded_app, learn_app, <- D1. auto.
Qed.


(** Two loop states with the same cache and the same templates. *)
Lemma resolve_source_same (fetch : remote) (st st' : rstate)
    (entry : string * source) :
  r_cache st = r_cache st' -> r_templates st = r_templates st' ->
  r_cache (resolve_source fetch st entry)
  = r_cache (resolve_source fetch st' entry) /\
  r_templates (resolve_source fetch st entry)
  = r_templates (resolve_source fetch st' entry).
Proof.
  destruct st as [c t l], st' as [c' t' l'], entry as [id src].
  cbn [r_cache r_templates]. intros <- <-. unfold resolve_source.
  cbn [r_cache r_templates r_lookups].
  destruct (src_tiles src) as [[|x xs]|]; cbn; auto;
    (destruct (src_url src) as [[|a u]|]; cbn; auto;
     destruct (c !! id); cbn; auto;
     destruct (fetch (String a u)); cbn; auto).
Qed.

Lemma resolve_sources_same (fetch : remote) (sources : list (string * source)) :
  forall st st' : rstate,
    r_cache st = r_cache st' -> r_templates st = r_templates st' ->
    r_cache (resolve_sources fetch sources st)
    = r_cache (resolve_sources fetch sources st') /\
    r_templates (resolve_sources fetch sources st)
    = r_templates (resolve_sources fetch sources st').
Proof.
  unfold resolve_sources.
  induction sources as [|entry sources IH]; intros st st' Hc Ht; [auto|].
  cbn [fold_left].
  destruct (resolve_source_same fetch st st' entry Hc Ht) as [Hc' Ht'].
  now apply IH.
Qed.

Lemma resolve_source_cache_other (fetch : remote) (st : rstate)
    (entry : string * source) (id : string) :
  entry.1 <> id ->
  r_cache (resolve_source fetch st entry) !! id = r_cache st !! id.
Proof.
  destruct entry as [i src]. cbn [fst]. intros Hne. unfold resolve_source.
  destruct (src_tiles src) as [[|x xs]|]; cbn; auto;
    (destruct (src_url src) as [[|a u]|]; cbn; auto;
     destruct (r_cache st !! i); cbn; auto;
     destruct (fetch (String a u)); cbn; auto;
     now apply lookup_insert_ne).
Qed.

Lemma resolve_sources_cache_other (fetch : remote)
    (sources : list (string * source)) (id : string) :
  ~ In id (map fst sources) ->
  forall st : rstate,
    r_cache (resolve_sources fetch sources st) !! id = r_cache st !! id.
Proof.
  unfold resolve_sources.
  induction sources as [|entry sources IH]; intros Hid st; [reflexivity|].
  cbn [fold_left]. cbn [map] in Hid.
  rewrite IH by (intros H; apply Hid; now right).
  apply resolve_source_cache_other. intros H. apply Hid. now left.
Qed.

(** The step of the loop on a source without inline tiles whose lookup
    fails: a log entry, and nothing else. *)
Lemma resolve_source_failed (fetch : remote) (st : rstate) (id u : string)
    (src : source) :
  src_tiles src = None \/ src_tiles src = Some [] ->
  src_url src = Some u -> u <> EmptyString ->
  r_cache st !! id = None -> fetch u = None ->
  resolve_source fetch st (id, src)
  = mkRState (r_cache st) (r_templates st)
      (r_lookups st ++ [Lookup id u false]).
Proof.
  intros Ht Hu Hne Hc Hf. unfold resolve_source.
  destruct u as [|a u]; [congruence|].
  destruct Ht as [-> | ->]; now rewrite Hu, Hc, Hf.
Qed.

(** C9.  A source without inline tiles whose remote lookup fails adds no
    template and leaves the cache as it was, and the loop goes on: the
    cache and the template list that the resolution ends with are those of
    the style without that source, and the log shows the failed lookup.
    With the sample style, the failing source [dead] does not keep the
    template of the reachable source [live] from the list. *)
Theorem failed_source_contributes_nothing :
  (forall (fetch : remote) (pre post : list (string * source))
          (id u : string) (src : source)
          (c : gmap string (list jsval)) (T : list string),
     src_tiles src = None \/ src_tiles src = Some [] ->
     src_url src = Some u -> u <> EmptyString ->
     ~ In id (map fst pre) -> c !! id = None ->
     fetch u = None ->
     (_resolveTemplates (Some (pre ++ (id, src) :: post)) fetch c T).1
     = (_resolveTemplates (Some (pre ++ post)) fetch c T).1 /\
     In (Lookup id u false)
        (_resolveTemplates (Some (pre ++ (id, src) :: post)) fetch c T).2) /\
  (_resolveTemplates (Some Sample.style) Sample.net ∅ []).1.2 = [Sample.tmpl].
Proof.
  split; [|reflexivity].
  intros fetch pre post id u src c T Ht Hu Hne Hpre Hc Hf.
  unfold _resolveTemplates, resolve_sources. cbn [fst snd].
  rewrite !fold_left_app. cbn [fold_left].
  fold (resolve_sources fetch pre (mkRState c [] [])).
  set (st1 := resolve_sources fetch pre (mkRState c [] [])).
  assert (Hmiss : r_cache st1 !! id = None).
  { unfold st1. now rewrite resolve_sources_cache_other. }
  rewrite (resolve_source_failed fetch st1 id u src Ht Hu Hne Hmiss Hf).
  set (st2 := mkRState (r_cache st1) (r_templates st1)
                (r_lookups st1 ++ [Lookup id u false])).
  fold (resolve_sources fetch post st2). fold (resolve_sources fetch post st1).
  destruct (resolve_sources_same fetch post st2 st1 eq_refl eq_refl)
    as [Hcache Htmpl].
  split; [now rewrite Hcache, Htmpl|].
  destruct (resolve_sources_lookups fetch post st2) as (new & L & _ & _).
  rewrite L. unfold st2. cbn [r_lookups].
  apply in_or_app. left. apply in_or_app. right. now left.
Qed.

Lemma failed_source_contributes_nothing_witness :
  (_resolveTemplates (Some Sample.style) Sample.net ∅ []).1
  = (_resolveTemplates (Some [("live"%string,
        mkSource None (Some Sample.live_url))]) Sample.net ∅ []).1 /\
  In (Lookup "dead" Sample.dead_url false)
     (_resolveTemplates (Some Sample.style) Sample.net ∅ []).2.
Proof.
  apply (proj1 failed_source_contributes_nothing Sample.net []
           [("live"%string, mkSource None (Some Sample.live_url))]
           "dead"%string Sample.dead_url
           (mkSource None (Some Sample.dead_url)) ∅ []).
  - now left.
  - reflexivity.
  - discriminate.
  - intros [].
  - reflexivity.
  - reflexivity.
Defined.

End ResolverFacts.

(** ** Witnesses of the cycle properties on the sample map *)

Section CycleWitnesses.
Import Scheduler.

Lemma inflight_never_refetched_witness :
  exists ef, In ef [Deleted Sample.url_a] /\ removes Sample.url_a ef.
Proof.
  apply (proj2 (proj2 inflight_never_refetched)
           (mkOpts 1 1 120 1 Url.default_shouldPrefetch true)
           [TimerFires Sample.env; Settles Sample.url_a Rejected;
            MoveEnd; TimerFires Sample.env]
           (_onMoveEnd Sample.warm)
           [] [Deleted Sample.url_a] []
           (mkRequest Sample.url_a ∅) (mkRequest Sample.url_a ∅)).
  - vm_compute. reflexivity.
  - reflexivity.
Defined.

Lemma prefetchNow_twice_witness :
  _templates (_prefetchNow default_opts Sample.env init).1 = [Sample.tmpl] /\
  rep_requests (_prefetchNow default_opts Sample.env
                  (_prefetchNow default_opts Sample.env init).1).2 = [] /\
  rep_list (_prefetchNow default_opts Sample.env
              (_prefetchNow default_opts Sample.env init).1).2
  = rep_list (_prefetchNow default_opts Sample.env init).2.
Proof.
  assert (H : _templates (_prefetchNow default_opts Sample.env init).1
              = [Sample.tmpl]) by (vm_compute; reflexivity).
  split; [exact H|].
  destruct (prefetchNow_twice default_opts Sample.env init)
    as (H1 & _ & _ & H4 & _); [rewrite H; discriminate|].
  split; [exact H4|exact H1].
Defined.

End CycleWitnesses.

(** ** Lifecycle *)

Section LifecycleFacts.
Import Scheduler.

Lemma resolve_timer (e : mapenv) (p : prefetcher) :
  _debounceTimer (resolve e p).1 = _debounceTimer p.
Proof.
  unfold resolve.
  destruct (Resolver._resolveTemplates _ _ _ _) as [[c t] l]. reflexivity.
Qed.

Lemma prefetchNow_timer (o : opts) (e : mapenv) (p : prefetcher) :
  _debounceTimer (_prefetchNow o e p).1 = _debounceTimer p.
Proof.
  unfold _prefetchNow.
  assert (H : exists p1 lk,
    match _templates p with [] => resolve e p | _ :: _ => (p, []) end = (p1, lk)
    /\ _debounceTimer p1 = _debounceTimer p).
  { destruct (_templates p).
    - exists (resolve e p).1, (resolve e p).2.
      split; [now destruct (resolve e p)|apply resolve_timer].
    - exists p, []. auto. }
  destruct H as (p1 & lk & -> & Ht).
  destruct (_templates p1) as [|t ts]; [exact Ht|].
  destruct (candidates o (t :: ts) e) as [[ns ps] cands].
  destruct (issue cands (_inflight p1)) as [S' reqs]. exact Ht.
Qed.

(** A cycle that starts without templates begins with a resolution. *)
Lemma prefetchNow_resolves (o : opts) (e : mapenv) (p : prefetcher) :
  _templates p = [] ->
  rep_lookups (_prefetchNow o e p).2
  = (Resolver._resolveTemplates (env_style e) (env_remote e)
       (_tilejsonCache p) []).2.
Proof.
  intros Ht. unfold _prefetchNow, resolve. rewrite Ht.
  destruct (Resolver._resolveTemplates _ _ _ _) as [[c t] l].
  cbn [set_templates _templates snd].
  destruct t as [|t ts]; [reflexivity|].
  destruct (candidates o (t :: ts) e) as [[ns ps] cands].
  destruct (issue cands _) as [S' reqs]. reflexivity.
Qed.

(** C10.  [destroy] never touches the debounce timer.  After a [moveend]
    that scheduled the timer, [destroy] detaches both listeners and empties
    the in-flight set, the TileJSON cache and the template list, and leaves
    the timer pending.  Later
    [moveend] and [styledata] events do nothing; when the timer fires, one
    more cycle runs: it starts with a template resolution against the
    style of the map, on the emptied cache, and the timer is not pending
    afterwards.  On the sample map that cycle looks both sources up and
    issues nine fetches. *)
Theorem destroy_leaves_timer (o : opts) (p : prefetcher) (e : mapenv) :
  on_moveend p = true ->
  (forall q, _debounceTimer (destroy q) = _debounceTimer q) /\
  (run o [MoveEnd; Destroy] p).1 = destroy (_onMoveEnd p) /\
  on_moveend (destroy (_onMoveEnd p)) = false /\
  on_styledata (destroy (_onMoveEnd p)) = false /\
  _inflight (destroy (_onMoveEnd p)) = ∅ /\
  _tilejsonCache (destroy (_onMoveEnd p)) = ∅ /\
  _templates (destroy (_onMoveEnd p)) = [] /\
  _debounceTimer (destroy (_onMoveEnd p)) = true /\
  step o MoveEnd (destroy (_onMoveEnd p)) = (destroy (_onMoveEnd p), []) /\
  step o (StyleData e) (destroy (_onMoveEnd p)) = (destroy (_onMoveEnd p), []) /\
  (step o (TimerFires e) (destroy (_onMoveEnd p))).2
  = map Looked (rep_lookups
      (_prefetchNow o e (set_timer (destroy (_onMoveEnd p)) false)).2)
    ++ map Fetched (rep_requests
      (_prefetchNow o e (set_timer (destroy (_onMoveEnd p)) false)).2) /\
  rep_lookups (_prefetchNow o e (set_timer (destroy (_onMoveEnd p)) false)).2
  = (Resolver._resolveTemplates (env_style e) (env_remote e) ∅ []).2 /\
  _debounceTimer (step o (TimerFires e) (destroy (_onMoveEnd p))).1 = false /\
  (run default_opts [MoveEnd; Destroy; TimerFires Sample.env] Sample.warm).2
  = Cleared
    :: Looked (Resolver.Lookup "dead" Sample.dead_url false)
    :: Looked (Resolver.Lookup "live" Sample.live_url true)
    :: map Fetched (issue
         (candidates default_opts [Sample.tmpl] Sample.env).2 ∅).2 /\
  length (fetched_urls
    (run default_opts [MoveEnd; Destroy; TimerFires Sample.env] Sample.warm).2)
  = 9%nat.
Proof.
  intros Hon.
  split; [reflexivity|].
  split; [cbn [run step]; now rewrite Hon|].
  do 8 (split; [reflexivity|]).
  split.
  { cbn [step destroy _onMoveEnd set_timer _debounceTimer].
    now destruct (_prefetchNow o e _) as [p1 r]. }
  split; [now apply prefetchNow_resolves|].
  split.
  { cbn [step destroy _onMoveEnd set_timer _debounceTimer].
    pose proof (prefetchNow_timer o e
      (set_timer (destroy (_onMoveEnd p)) false)) as H.
    cbn [step destroy _onMoveEnd set_timer _debounceTimer] in H.
    now destruct (_prefetchNow o e _) as [p1 r]. }
  split; vm_compute; reflexivity.
Qed.

Lemma destroy_leaves_timer_witness :
  on_moveend Sample.warm = true /\
  _debounceTimer (run default_opts [MoveEnd; Destroy] Sample.warm).1 = true /\
  _templates (run default_opts [MoveEnd; Destroy] Sample.warm).1 = [].
Proof.
  assert (H : on_moveend Sample.warm = true) by reflexivity.
  destruct (destroy_leaves_timer default_opts Sample.warm Sample.env H)
    as (_ & H1 & _ & _ & _ & _ & H6 & H7 & _).
  split; [exact H|]. rewrite H1. split; [exact H7|exact H6].
Defined.

End LifecycleFacts.

(* ===================================================================== *)
(** * Part III: further properties of the code                           *)
(* ===================================================================== *)

(** ** Wrapping and counting *)

Section GridFacts.
Import Coord TileSet.

(** X1.  On a positive modulus, [wrapX] is the floored modulus also on
    negative indices, it is invariant under shifts by whole turns of the
    world, and it leaves its own results alone. *)
Theorem wrapX_floored_periodic (t x k : Z) :
  0 < t ->
  wrapX t x = x mod t /\
  wrapX t (x + k * t) = wrapX t x /\
  wrapX t (wrapX t x) = wrapX t x.
Proof.
  intros Ht. rewrite !wrapX_mod by assumption.
  split; [reflexivity|]. split.
  - now rewrite Z.mod_add by lia.
  - apply Z.mod_mod. lia.
Qed.

Lemma wrapX_floored_periodic_witness :
  wrapX 4 (-1) = (-1) mod 4 /\
  wrapX 4 (-1 + 3 * 4) = wrapX 4 (-1) /\
  wrapX 4 (wrapX 4 (-1)) = wrapX 4 (-1).
Proof. apply (wrapX_floored_periodic 4 (-1) 3). lia. Defined.

(** X2.  A larger ring count only adds indices: what [n] rings produce is
    produced by [m >= n] rings. *)
Theorem collectNeighborsTiles_mono (z x0 y0 x1 y1 n m : Z) (p : xy) :
  n <= m ->
  In p (_collectNeighborsTiles z x0 y0 x1 y1 n) ->
  In p (_collectNeighborsTiles z x0 y0 x1 y1 m).
Proof.
  intros Hnm Hp.
  apply in_collectNeighborsTiles in Hp as (x & y & Hx & Hy & Hin & ->).
  apply in_collectNeighborsTiles. exists x, y.
  repeat split; try assumption; lia.
Qed.

Lemma collectNeighborsTiles_mono_witness :
  In (mkXY 1818 1602) (_collectNeighborsTiles 12 1819 1603 1819 1603 2).
Proof.
  apply (collectNeighborsTiles_mono 12 1819 1603 1819 1603 1 2).
  - lia.
  - vm_compute. auto.
Defined.

Lemma for_range_length (lo hi : Z) :
  length (for_range lo hi) = Z.to_nat (hi - lo + 1).
Proof. unfold for_range. now rewrite length_map, length_seq. Qed.

Lemma for_range_app (lo mid hi : Z) :
  lo <= mid + 1 -> mid <= hi ->
  for_range lo hi = for_range lo mid ++ for_range (mid + 1) hi.
Proof.
  intros H1 H2. unfold for_range.
  replace (Z.to_nat (hi - lo + 1))
    with (Z.to_nat (mid - lo + 1) + Z.to_nat (hi - (mid + 1) + 1))%nat by lia.
  rewrite seq_app, map_app. f_equal.
  rewrite Nat.add_0_l.
  rewrite <- (Nat.add_0_r (Z.to_nat (mid - lo + 1))) at 1.
  generalize 0%nat as b.
  induction (Z.to_nat (hi - (mid + 1) + 1)) as [|k IH]; intros b; cbn [seq map].
  - reflexivity.
  - f_equal; [lia|].
    replace (S (Z.to_nat (mid - lo + 1) + b))
      with (Z.to_nat (mid - lo + 1) + S b)%nat by lia.
    apply IH.
Qed.

(** The number of rows of one column that lie outside the rectangle. *)
Lemma column_outside_length (t x0 y0 x1 y1 n x : Z) :
  y0 <= y1 -> 0 <= n ->
  length (flat_map (fun y =>
            if inside x0 y0 x1 y1 x y then []
            else [mkXY (wrapX t x) (clampY t y)])
            (for_range (y0 - n) (y1 + n)))
  = if (x0 <=? x) && (x <=? x1) then Z.to_nat (2 * n)
    else Z.to_nat (y1 - y0 + 1 + 2 * n).
Proof.
  intros Hy Hn.
  destruct ((x0 <=? x) && (x <=? x1)) eqn:Ex.
  - rewrite (for_range_app (y0 - n) (y0 - 1) (y1 + n)) by lia.
    rewrite (for_range_app (y0 - 1 + 1) y1 (y1 + n)) by lia.
    rewrite !flat_map_app, !length_app.
    rewrite (flat_map_constant_length (c := 1)),
            (flat_map_constant_length (c := 0)),
            (flat_map_constant_length (c := 1)).
    + rewrite !for_range_length. lia.
    + intros y Hin. apply in_for_range in Hin.
      unfold inside. rewrite Ex.
      replace (y <=? y1) with false by (symmetry; apply Z.leb_gt; lia).
      now rewrite andb_false_r.
    + intros y Hin. apply in_for_range in Hin.
      unfold inside. rewrite Ex.
      replace (y0 <=? y) with true by (symmetry; apply Z.leb_le; lia).
      replace (y <=? y1) with true by (symmetry; apply Z.leb_le; lia).
      reflexivity.
    + intros y Hin. apply in_for_range in Hin.
      unfold inside. rewrite Ex.
      replace (y0 <=? y) with false by (symmetry; apply Z.leb_gt; lia).
      reflexivity.
  - rewrite (flat_map_constant_length (c := 1)).
    + rewrite for_range_length. lia.
    + intros y _. unfold inside. rewrite Ex. reflexivity.
Qed.

(** X3.  For a range with [minX <= maxX] and [minY <= maxY] and [n >= 0]
    rings, [_collectNeighborsTiles] returns one index for every cell of the
    expanded rectangle outside the original one:
    [(w + 2n)(h + 2n) - w h] indices, repetitions after normalisation
    included. *)
Theorem collectNeighborsTiles_length (z x0 y0 x1 y1 n : Z) :
  x0 <= x1 -> y0 <= y1 -> 0 <= n ->
  Z.of_nat (length (_collectNeighborsTiles z x0 y0 x1 y1 n))
  = (x1 - x0 + 1 + 2 * n) * (y1 - y0 + 1 + 2 * n)
    - (x1 - x0 + 1) * (y1 - y0 + 1).
Proof.
  intros Hx Hy Hn. unfold _collectNeighborsTiles.
  rewrite (for_range_app (x0 - n) (x0 - 1) (x1 + n)) by lia.
  rewrite (for_range_app (x0 - 1 + 1) x1 (x1 + n)) by lia.
  rewrite !flat_map_app, !length_app.
  rewrite (flat_map_constant_length (c := Z.to_nat (y1 - y0 + 1 + 2 * n))),
          (flat_map_constant_length (c := Z.to_nat (2 * n))),
          (flat_map_constant_length (c := Z.to_nat (y1 - y0 + 1 + 2 * n))).
  - rewrite !for_range_length. nia.
  - intros x Hin. apply in_for_range in Hin.
    rewrite column_outside_length by assumption.
    replace (x <=? x1) with false by (symmetry; apply Z.leb_gt; lia).
    now rewrite andb_false_r.
  - intros x Hin. apply in_for_range in Hin.
    rewrite column_outside_length by assumption.
    replace (x0 <=? x) with true by (symmetry; apply Z.leb_le; lia).
    replace (x <=? x1) with true by (symmetry; apply Z.leb_le; lia).
    reflexivity.
  - intros x Hin. apply in_for_range in Hin.
    rewrite column_outside_length by assumption.
    replace (x0 <=? x) with false by (symmetry; apply Z.leb_gt; lia).
    reflexivity.
Qed.

Lemma collectNeighborsTiles_length_witness :
  Z.of_nat (length (_collectNeighborsTiles 12 1819 1603 1820 1603 2))
  = (1820 - 1819 + 1 + 2 * 2) * (1603 - 1603 + 1 + 2 * 2)
    - (1820 - 1819 + 1) * (1603 - 1603 + 1).
Proof. apply (collectNeighborsTiles_length 12 1819 1603 1820 1603 2); lia. Defined.

End GridFacts.

(** ** Tiles of the viewport and their ancestors *)

Section PhaseFacts.
Import Coord TileSet Url Scheduler.

Lemma parent_phase_no_tiles (templates : list string) (z : Z) (k : nat) :
  forall (d : Z) (acc : list string * list string),
    for_depths z (depth_body templates z []) k d acc = acc.
Proof.
  induction k as [|k IH]; intros d acc; cbn [for_depths]; [reflexivity|].
  destruct (z - d <? 0); [reflexivity|]. now rewrite IH.
Qed.

(** X4.  [tilesAtZ] holds one tile for every cell of the floored rectangle,
    [w h] tiles, none when the east edge falls west of the west edge or the
    south edge north of the north edge; in that case the parent block adds
    no key and no URL, whatever the configured depth. *)
Theorem visibleTileRange_length (vxMinX vxMaxX vyMinY vyMaxY z : Z) :
  length (tilesAtZ (_visibleTileRange vxMinX vxMaxX vyMinY vyMaxY z))
  = (Z.to_nat (vxMaxX - vxMinX + 1) * Z.to_nat (vyMaxY - vyMinY + 1))%nat /\
  (vxMaxX < vxMinX \/ vyMaxY < vyMinY ->
   tilesAtZ (_visibleTileRange vxMinX vxMaxX vyMinY vyMaxY z) = [] /\
   forall o templates urls,
     parent_phase o templates z
       (_visibleTileRange vxMinX vxMaxX vyMinY vyMaxY z) urls = ([], urls)).
Proof.
  assert (Hlen : length (tilesAtZ (_visibleTileRange vxMinX vxMaxX vyMinY vyMaxY z))
    = (Z.to_nat (vxMaxX - vxMinX + 1) * Z.to_nat (vyMaxY - vyMinY + 1))%nat).
  { cbn [_visibleTileRange tilesAtZ].
    rewrite (flat_map_constant_length (c := Z.to_nat (vyMaxY - vyMinY + 1))).
    - now rewrite for_range_length.
    - intros x _. now rewrite length_map, for_range_length. }
  split; [exact Hlen|]. intros Hinv.
  assert (Hnil : tilesAtZ (_visibleTileRange vxMinX vxMaxX vyMinY vyMaxY z) = []).
  { apply length_zero_iff_nil. rewrite Hlen. destruct Hinv; lia. }
  split; [exact Hnil|]. intros o templates urls.
  unfold parent_phase. rewrite Hnil. apply parent_phase_no_tiles.
Qed.

Lemma visibleTileRange_length_witness :
  tilesAtZ (_visibleTileRange 3 0 1 2 2) = [] /\
  forall o templates urls,
    parent_phase o templates 2 (_visibleTileRange 3 0 1 2 2) urls = ([], urls).
Proof.
  apply (proj2 (visibleTileRange_length 3 0 1 2 2)). left. lia.
Defined.

(** An index of the grid of zoom [z], halved [d <= z] times, is an index of
    the grid of zoom [z - d]. *)
Lemma halve_chain_grid (z d x : Z) :
  0 <= d <= z -> 0 <= x <= pow2 z - 1 ->
  0 <= halve_chain d x <= pow2 (z - d) - 1.
Proof.
  intros Hd Hx. unfold halve_chain. rewrite iter_floor_half.
  rewrite Z2Nat.id by lia. unfold pow2 in *.
  assert (Hp : 0 < 2 ^ d) by (apply Z.pow_pos_nonneg; lia).
  assert (Hz : 2 ^ z = 2 ^ (z - d) * 2 ^ d).
  { rewrite <- Z.pow_add_r by lia. f_equal. lia. }
  split.
  - apply Z.div_pos; lia.
  - assert (x / 2 ^ d < 2 ^ (z - d)); [|lia].
    apply Z.div_lt_upper_bound; [exact Hp|]. lia.
Qed.

Lemma NoDup_set_add (u : string) (s : list string) :
  List.NoDup s -> List.NoDup (set_add u s).
Proof.
  intros H. unfold set_add. destruct (decide (u ∈ s)) as [Hin|Hin]; [exact H|].
  apply List.NoDup_app; [exact H|repeat constructor; intros []|].
  intros a Ha [<-|[]]. apply Hin. now apply list_elem_of_In.
Qed.

Lemma NoDup_add_urls (templates : list string) (z x y : num) :
  forall urls, List.NoDup urls -> List.NoDup (add_urls templates z x y urls).
Proof.
  unfold add_urls. induction templates as [|t ts IH]; intros urls H; [exact H|].
  cbn [fold_left]. apply IH.
  destruct (_tileURL t z x y) as [[|c u]|]; auto using NoDup_set_add.
Qed.

Lemma NoDup_firstn {A : Type} (n : nat) (l : list A) :
  List.NoDup l -> List.NoDup (firstn n l).
Proof.
  intros H. rewrite <- (firstn_skipn n l) in H.
  now apply List.NoDup_app_remove_r in H.
Qed.

Lemma NoDup_fold_pair {A : Type} (f : list string * list string -> A ->
    list string * list string) (l : list A) :
  (forall acc a, List.NoDup acc.1 /\ List.NoDup acc.2 ->
     List.NoDup (f acc a).1 /\ List.NoDup (f acc a).2) ->
  forall acc, List.NoDup acc.1 /\ List.NoDup acc.2 ->
    List.NoDup (fold_left f l acc).1 /\ List.NoDup (fold_left f l acc).2.
Proof.
  intros Hf. induction l as [|a l IH]; intros acc H; [exact H|].
  cbn [fold_left]. apply IH, Hf, H.
Qed.

Lemma NoDup_neighbor_phase (o : opts) (templates : list string) (z : Z)
    (v : visible) :
  List.NoDup (neighbor_phase o templates z v).1 /\
  List.NoDup (neighbor_phase o templates z v).2.
Proof.
  unfold neighbor_phase. destruct (0 <? neighbors o).
  - apply NoDup_fold_pair; [|cbn; split; constructor].
    intros [ns us] p [H1 H2]. cbn in *.
    split; [now apply NoDup_set_add|now apply NoDup_add_urls].
  - cbn. split; constructor.
Qed.

Lemma NoDup_depth_body (templates : list string) (z d : Z)
    (tiles : list tile) (acc : list string * list string) :
  List.NoDup acc.1 /\ List.NoDup acc.2 ->
  List.NoDup (depth_body templates z tiles d acc).1 /\
  List.NoDup (depth_body templates z tiles d acc).2.
Proof.
  unfold depth_body. apply NoDup_fold_pair.
  intros [ps us] key [H1 H2]. cbn in *.
  split; [now apply NoDup_set_add|now apply NoDup_add_urls].
Qed.

Lemma NoDup_parent_phase (o : opts) (templates : list string) (z : Z)
    (v : visible) (urls : list string) :
  List.NoDup urls ->
  List.NoDup (parent_phase o templates z v urls).1 /\
  List.NoDup (parent_phase o templates z v urls).2.
Proof.
  intros H. unfold parent_phase. rewrite for_depths_fold.
  apply (NoDup_fold_pair (fun a i => depth_body templates z (tilesAtZ v) i a)).
  - intros acc d Hacc. now apply NoDup_depth_body.
  - cbn. split; [constructor|exact H].
Qed.

Lemma candidates_sets (o : opts) (templates : list string) (e : mapenv) :
  List.NoDup (candidates o templates e).1.1 /\
  List.NoDup (candidates o templates e).1.2 /\
  List.NoDup (candidates o templates e).2.
Proof.
  unfold candidates.
  pose proof (NoDup_neighbor_phase o templates (clampZoom (env_floorZoom e))
    (_visibleTileRange (env_vxMinX e) (env_vxMaxX e) (env_vyMinY e)
       (env_vyMaxY e) (clampZoom (env_floorZoom e)))) as [Hn Hu].
  destruct (neighbor_phase _ _ _ _) as [ns urls1]. cbn [fst snd] in Hn, Hu.
  pose proof (NoDup_parent_phase o templates (clampZoom (env_floorZoom e))
    (_visibleTileRange (env_vxMinX e) (env_vxMaxX e) (env_vyMinY e)
       (env_vyMaxY e) (clampZoom (env_floorZoom e))) urls1 Hu) as [Hp Hu'].
  destruct (parent_phase _ _ _ _ _) as [ps urls]. cbn [fst snd] in *.
  split; [exact Hn|]. split; [exact Hp|].
  unfold slice0. apply NoDup_firstn. now apply List.NoDup_filter.
Qed.

(** X5.  Neither key set of a cycle nor its list of URLs holds a value
    twice: a tile reached through several raw indices or several children,
    or a URL produced by several templates, is kept once. *)
Theorem candidates_NoDup (o : opts) (templates : list string) (e : mapenv) :
  List.NoDup (candidates o templates e).1.1 /\
  List.NoDup (candidates o templates e).1.2 /\
  List.NoDup (candidates o templates e).2.
Proof. apply candidates_sets. Qed.

End PhaseFacts.

(** ** Keys and URLs of a cycle *)

Section SoundnessFacts.
Import Coord TileSet Url Scheduler.

(** X6.  A key [z/x/y] split at the slashes and parsed gives back the three
    integers it was written from, negative ones included; so two tiles with
    the same key are the same tile. *)
Theorem tile_key_roundtrip (z x y : Z) :
  map to_number (split_slash (tile_key z x y)) = [Int z; Int x; Int y] /\
  (forall z' x' y',
     tile_key z x y = tile_key z' x' y' -> z = z' /\ x = x' /\ y = y').
Proof.
  split; [apply key_parts|].
  intros z' x' y' H.
  pose proof (key_parts z x y) as H1. rewrite H, key_parts in H1.
  injection H1 as -> -> ->. auto.
Qed.

Lemma fold_left_inv {A B : Type} (P : A -> Prop) (f : A -> B -> A)
    (l : list B) :
  (forall acc b, In b l -> P acc -> P (f acc b)) ->
  forall acc, P acc -> P (fold_left f l acc).
Proof.
  induction l as [|b l IH]; intros Hf acc H; [exact H|].
  cbn [fold_left]. apply IH.
  - intros acc' b' Hb. apply Hf. now right.
  - apply Hf; [now left|exact H].
Qed.

Lemma add_urls_in (templates : list string) (z x y : num) (u : string) :
  forall urls,
    In u (add_urls templates z x y urls) ->
    In u urls \/ exists tmpl, In tmpl templates /\ _tileURL tmpl z x y = Some u.
Proof.
  unfold add_urls. induction templates as [|t ts IH]; intros urls H; [now left|].
  cbn [fold_left] in H. apply IH in H as [H|(tmpl & Ht & Hu)].
  - destruct (_tileURL t z x y) as [[|c s]|] eqn:E; try now left.
    apply in_set_add in H as [->|H]; [|now left].
    right. exists t. split; [now left|exact E].
  - right. exists tmpl. split; [now right|exact Hu].
Qed.

Lemma url_of_tile_weaken (templates : list string) (z z1 : Z) (u : string) :
  z <= z1 -> url_of_tile templates z u -> url_of_tile templates z1 u.
Proof.
  intros Hz (tmpl & z' & x & y & H1 & H2 & H3 & H4 & H5).
  exists tmpl, z', x, y. repeat split; try assumption; lia.
Qed.

Lemma tilesAtZ_grid (a b c d z : Z) (t : tile) :
  0 <= z ->
  In t (tilesAtZ (_visibleTileRange a b c d z)) ->
  0 <= tile_x t <= pow2 z - 1 /\ 0 <= tile_y t <= pow2 z - 1.
Proof.
  intros Hz Ht. cbn [_visibleTileRange tilesAtZ] in Ht.
  apply in_flat_map in Ht as (x & _ & Ht).
  apply in_map_iff in Ht as (y & <- & _). cbn [tile_x tile_y].
  pose proof (pow2_pos z Hz) as Hpos.
  split; [now apply wrapX_range|now apply clampY_range].
Qed.

Lemma neighbor_phase_sound (o : opts) (templates : list string) (z : Z)
    (v : visible) :
  0 <= z ->
  (forall key, In key (neighbor_phase o templates z v).1 -> key_of_tile z key) /\
  (forall u, In u (neighbor_phase o templates z v).2 -> url_of_tile templates z u).
Proof.
  intros Hz. pose proof (pow2_pos z Hz) as Hpos.
  unfold neighbor_phase. destruct (0 <? neighbors o); [|cbn; split; intros ? []].
  apply (fold_left_inv (fun acc : list string * list string =>
    (forall key, In key acc.1 -> key_of_tile z key) /\
    (forall u, In u acc.2 -> url_of_tile templates z u)));
    [|cbn; split; intros ? []].
  intros [ns us] p Hp [Hk Hu]. cbn [fst snd] in *.
  apply in_collectNeighborsTiles in Hp as (x & y & _ & _ & _ & ->).
  cbn [xy_x xy_y].
  pose proof (wrapX_range (pow2 z) x Hpos) as Hx.
  pose proof (clampY_range (pow2 z) y Hpos) as Hy.
  split.
  - intros key Hin. apply in_set_add in Hin as [->|Hin]; [|auto].
    exists (wrapX (pow2 z) x), (clampY (pow2 z) y). auto.
  - intros u Hin. apply add_urls_in in Hin as [Hin|(tmpl & Ht & Hin)]; [auto|].
    exists tmpl, z, (wrapX (pow2 z) x), (clampY (pow2 z) y).
    repeat split; try assumption; lia.
Qed.

Lemma depth_body_sound (templates : list string) (z d : Z)
    (tiles : list tile) (acc : list string * list string) :
  1 <= d <= z ->
  (forall t, In t tiles ->
     0 <= tile_x t <= pow2 z - 1 /\ 0 <= tile_y t <= pow2 z - 1) ->
  (forall key, In key acc.1 -> exists d', 1 <= d' <= z /\ key_of_tile (z - d') key) ->
  (forall u, In u acc.2 -> url_of_tile templates z u) ->
  (forall key, In key (depth_body templates z tiles d acc).1 ->
     exists d', 1 <= d' <= z /\ key_of_tile (z - d') key) /\
  (forall u, In u (depth_body templates z tiles d acc).2 ->
     url_of_tile templates z u).
Proof.
  intros Hd Htiles Hk Hu. unfold depth_body.
  apply (fold_left_inv (fun a : list string * list string =>
    (forall key, In key a.1 -> exists d', 1 <= d' <= z /\ key_of_tile (z - d') key) /\
    (forall u, In u a.2 -> url_of_tile templates z u))); [|auto].
  intros [ps us] key Hkey [Hk' Hu']. cbn [fst snd] in *.
  apply depth_keys_form in Hkey as (t & Ht & ->).
  destruct (Htiles t Ht) as [Hx Hy].
  assert (Hgx := halve_chain_grid z d (tile_x t) ltac:(lia) Hx).
  assert (Hgy := halve_chain_grid z d (tile_y t) ltac:(lia) Hy).
  destruct (part_key (z - d) (halve_chain d (tile_x t))
              (halve_chain d (tile_y t))) as (-> & -> & ->).
  split.
  - intros k Hin. apply in_set_add in Hin as [->|Hin]; [|auto].
    exists d. split; [exact Hd|].
    exists (halve_chain d (tile_x t)), (halve_chain d (tile_y t)). auto.
  - intros u Hin. apply add_urls_in in Hin as [Hin|(tmpl & Htm & Hin)]; [auto|].
    exists tmpl, (z - d), (halve_chain d (tile_x t)), (halve_chain d (tile_y t)).
    repeat split; try assumption; lia.
Qed.

Lemma parent_phase_sound (o : opts) (templates : list string) (z : Z)
    (v : visible) (urls : list string) :
  (forall t, In t (tilesAtZ v) ->
     0 <= tile_x t <= pow2 z - 1 /\ 0 <= tile_y t <= pow2 z - 1) ->
  (forall u, In u urls -> url_of_tile templates z u) ->
  (forall key, In key (parent_phase o templates z v urls).1 ->
     exists d, 1 <= d <= z /\ d <= levels_of o /\ key_of_tile (z - d) key) /\
  (forall u, In u (parent_phase o templates z v urls).2 ->
     url_of_tile templates z u).
Proof.
  intros Htiles Hu. unfold parent_phase. rewrite for_depths_fold.
  apply (fold_left_inv (fun a : list string * list string =>
    (forall key, In key a.1 ->
       exists d, 1 <= d <= z /\ d <= levels_of o /\ key_of_tile (z - d) key) /\
    (forall u, In u a.2 -> url_of_tile templates z u)));
    [|cbn; split; [intros ? []|exact Hu]].
  intros acc d Hd [Hk Hu']. apply in_for_range in Hd.
  assert (Hlv : 0 <= levels_of o) by (unfold levels_of; lia).
  assert (Hdz : 1 <= d <= z) by lia.
  split.
  - intros key Hin. apply depth_body_parentSet in Hin as [Hin|Hin]; [auto|].
    apply depth_keys_form in Hin as (t & Ht & ->).
    destruct (Htiles t Ht) as [Hx Hy].
    exists d. split; [exact Hdz|]. split; [lia|].
    exists (halve_chain d (tile_x t)), (halve_chain d (tile_y t)).
    split; [apply halve_chain_grid; [lia|exact Hx]|].
    split; [apply halve_chain_grid; [lia|exact Hy]|reflexivity].
  - apply (depth_body_sound templates z d (tilesAtZ v) acc Hdz Htiles).
    + intros key Hin. destruct (Hk key Hin) as (d' & H1 & _ & H2). eauto.
    + exact Hu'.
Qed.

(** X7.  Every key of the neighbour set of a cycle is the key of a tile of
    the grid of the clamped zoom [z], and every key of the parent set the
    key of a tile of the grid of a zoom [z - d] with
    [1 <= d <= min(levels, z)]: no key names a tile that does not exist. *)
Theorem candidates_keys_valid (o : opts) (templates : list string)
    (e : mapenv) :
  (forall key, In key (candidates o templates e).1.1 ->
     key_of_tile (clampZoom (env_floorZoom e)) key) /\
  (forall key, In key (candidates o templates e).1.2 ->
     exists d, 1 <= d <= clampZoom (env_floorZoom e) /\ d <= levels_of o /\
       key_of_tile (clampZoom (env_floorZoom e) - d) key).
Proof.
  pose proof (clampZoom_range (env_floorZoom e)) as Hz.
  unfold candidates.
  set (z := clampZoom (env_floorZoom e)) in *.
  set (v := _visibleTileRange _ _ _ _ z).
  pose proof (neighbor_phase_sound o templates z v (proj1 Hz)) as [Hnk Hnu].
  destruct (neighbor_phase o templates z v) as [ns urls1]. cbn [fst snd] in *.
  pose proof (parent_phase_sound o templates z v urls1
    (fun t Ht => tilesAtZ_grid _ _ _ _ z t (proj1 Hz) Ht) Hnu) as [Hpk _].
  destruct (parent_phase o templates z v urls1) as [ps urls].
  cbn [fst snd] in *. auto.
Qed.

(** X8.  Every fetch of a cycle is for a URL that [shouldPrefetch] accepts
    and that one of the templates in use gives to a tile of the grid of a
    zoom from 0 to the clamped zoom: no fetch is made for an index outside
    the grid, for a URL built from anything but a current template, or for
    a URL the predicate refuses. *)
Theorem prefetchNow_fetches_sound (o : opts) (e : mapenv) (p : prefetcher)
    (q : request) :
  In q (rep_requests (_prefetchNow o e p).2) ->
  shouldPrefetch o (req_url q) = true /\
  url_of_tile (_templates (_prefetchNow o e p).1)
    (clampZoom (env_floorZoom e)) (req_url q).
Proof.
  unfold _prefetchNow.
  destruct (match _templates p with [] => resolve e p | _ :: _ => (p, []) end)
    as [p1 lk].
  destruct (_templates p1) as [|t ts] eqn:E; [intros []|].
  assert (Hc : forall u, In u (candidates o (t :: ts) e).2 ->
    shouldPrefetch o u = true /\
    url_of_tile (t :: ts) (clampZoom (env_floorZoom e)) u).
  { pose proof (clampZoom_range (env_floorZoom e)) as Hz.
    unfold candidates.
    set (z := clampZoom (env_floorZoom e)) in *.
    set (v := _visibleTileRange _ _ _ _ z).
    pose proof (neighbor_phase_sound o (t :: ts) z v (proj1 Hz)) as [_ Hnu].
    destruct (neighbor_phase o (t :: ts) z v) as [ns urls1]. cbn [snd] in Hnu.
    pose proof (parent_phase_sound o (t :: ts) z v urls1
      (fun t Ht => tilesAtZ_grid _ _ _ _ z t (proj1 Hz) Ht) Hnu) as [_ Hpu].
    destruct (parent_phase o (t :: ts) z v urls1) as [ps urls].
    cbn [fst snd] in *. intros u Hu.
    apply in_slice0, filter_In in Hu as [Hu Hf]. auto. }
  destruct (candidates o (t :: ts) e) as [[ns ps] cands]. cbn [snd] in Hc.
  pose proof (issue_requests cands (_inflight p1) q) as Hq.
  destruct (issue cands (_inflight p1)) as [S' reqs]. cbn in *.
  intros Hin. destruct (Hq Hin) as (_ & _ & Hl). rewrite E. now apply Hc.
Qed.

Lemma prefetchNow_fetches_sound_witness :
  shouldPrefetch default_opts Sample.url_a = true /\
  url_of_tile (_templates (_prefetchNow default_opts Sample.env Sample.warm).1)
    (clampZoom (env_floorZoom Sample.env)) Sample.url_a.
Proof.
  apply (prefetchNow_fetches_sound default_opts Sample.env Sample.warm
           (mkRequest Sample.url_a ∅)).
  vm_compute. auto.
Defined.

End SoundnessFacts.

(** ** Tile URLs and the default predicate *)

Section UrlFacts.
Import Url Scheduler.

Lemma append_assoc (a b c : string) :
  String.append (String.append a b) c = String.append a (String.append b c).
Proof.
  induction a as [|x a IH]; [reflexivity|].
  change (String x (String.append (String.append a b) c)
          = String x (String.append a (String.append b c))).
  now rewrite IH.
Qed.

Lemma prefix_append (p r : string) : String.prefix p (String.append p r) = true.
Proof.
  induction p as [|a p IH];
    [change (String.prefix EmptyString r = true); now destruct r|].
  change (String.prefix (String a p) (String a (String.append p r)) = true).
  cbn [String.prefix]. destruct (ascii_dec a a); [exact IH|congruence].
Qed.

Lemma drop_chars_append (p r : string) :
  drop_chars (String.length p) (String.append p r) = r.
Proof.
  induction p as [|a p IH]; [reflexivity|].
  change (drop_chars (S (String.length p)) (String a (String.append p r)) = r).
  exact IH.
Qed.

Lemma includes_prefix (pat s : string) :
  String.prefix pat s = true -> includes pat s = true.
Proof. intros H. destruct s; cbn [includes]; now rewrite H. Qed.

Lemma includes_skip (pat s1 s2 : string) :
  includes pat s2 = true -> includes pat (String.append s1 s2) = true.
Proof.
  intros H. induction s1 as [|c s1 IH]; [exact H|].
  change (includes pat (String c (String.append s1 s2)) = true).
  cbn [includes]. rewrite IH. apply orb_true_r.
Qed.

Lemma includes_here (pat r : string) : includes pat (String.append pat r) = true.
Proof. apply includes_prefix, prefix_append. Qed.

Lemma replace_first_here (p rep pre rest : string) :
  no_open pre ->
  replace_first (String "{" p) rep
    (String.append pre (String.append (String "{" p) rest))
  = String.append pre (String.append rep rest).
Proof.
  intros Hpre. induction pre as [|c pre IH].
  - change (replace_first (String "{" p) rep
              (String "{" (String.append p rest)) = String.append rep rest).
    cbn [replace_first].
    change (String "{" (String.append p rest))
      with (String.append (String "{" p) rest).
    now rewrite prefix_append, drop_chars_append.
  - destruct Hpre as [Hc Hpre].
    change (replace_first (String "{" p) rep
              (String c (String.append pre (String.append (String "{" p) rest)))
            = String c (String.append pre (String.append rep rest))).
    cbn [replace_first String.prefix].
    destruct (ascii_dec "{" c) as [<-|Hne]; [discriminate|].
    now rewrite IH.
Qed.

Lemma no_open_append (a b : string) :
  no_open a -> no_open b -> no_open (String.append a b).
Proof.
  intros Ha Hb. induction a as [|c a IH]; [exact Hb|].
  destruct Ha as [Hc Ha].
  change (no_open (String c (String.append a b))). split; auto.
Qed.

Lemma no_open_uint (d : Decimal.uint) : no_open (NilEmpty.string_of_uint d).
Proof. induction d; cbn; auto. Qed.

Lemma no_open_num (n : num) : no_open (num_to_string n).
Proof.
  destruct n as [v|]; [|cbn; auto].
  unfold num_to_string, NilZero.string_of_int, NilZero.string_of_uint.
  destruct (Z.to_int v) as [d|d]; destruct d; cbn; auto using no_open_uint;
  try (split; [reflexivity|]); auto using no_open_uint;
  try (split; [reflexivity|]); apply no_open_uint.
Qed.

Lemma num_to_string_nonempty (n : num) : num_to_string n <> EmptyString.
Proof.
  destruct n as [v|]; [|discriminate].
  intros H. pose proof (to_number_num v) as E. rewrite H in E.
  cbn in E. injection E as <-. discriminate.
Qed.

Lemma replace_first_nonempty (pat rep s : string) :
  s <> EmptyString -> rep <> EmptyString ->
  replace_first pat rep s <> EmptyString.
Proof.
  intros Hs Hr. destruct s as [|c s]; [congruence|].
  cbn [replace_first]. destruct (String.prefix pat (String c s)).
  - destruct rep as [|r rep]; [congruence|]. discriminate.
  - discriminate.
Qed.

Lemma add_urls_keeps (templates : list string) (z x y : num) (u : string) :
  forall urls, In u urls -> In u (add_urls templates z x y urls).
Proof.
  unfold add_urls. induction templates as [|t ts IH]; intros urls H; [exact H|].
  cbn [fold_left]. apply IH.
  destruct (_tileURL t z x y) as [[|c s]|]; try exact H.
  apply in_set_add. now right.
Qed.

(** X9.  [_tileURL] returns [null] exactly when the template lacks one of
    the three placeholders; what it returns otherwise is never the empty
    string, so the truthiness test of its caller drops nothing but [null]:
    every template with the three placeholders puts its URL of the tile
    into the set. *)
Theorem tileURL_null_or_nonempty (tmpl : string) (z x y : num) :
  (_tileURL tmpl z x y = None <->
   includes "{z}" tmpl = false \/ includes "{x}" tmpl = false \/
   includes "{y}" tmpl = false) /\
  (forall u, _tileURL tmpl z x y = Some u -> u <> EmptyString) /\
  (forall templates urls u,
     In tmpl templates -> _tileURL tmpl z x y = Some u ->
     In u (add_urls templates z x y urls)).
Proof.
  assert (Hne : forall u, _tileURL tmpl z x y = Some u -> u <> EmptyString).
  { unfold _tileURL. intros u.
    destruct (includes "{z}" tmpl) eqn:Ez; [|discriminate].
    destruct (negb true || negb (includes "{x}" tmpl)
              || negb (includes "{y}" tmpl)); [discriminate|].
    intros [= <-].
    repeat apply replace_first_nonempty; try apply num_to_string_nonempty.
    intros ->. discriminate. }
  split; [|split; [exact Hne|]].
  - unfold _tileURL.
    destruct (includes "{z}" tmpl), (includes "{x}" tmpl),
      (includes "{y}" tmpl); cbn; split; intros H; try discriminate; auto;
      destruct H as [H|[H|H]]; discriminate.
  - intros templates urls u Hin Hu. revert urls.
    unfold add_urls. induction templates as [|t ts IH]; [destruct Hin|].
    intros urls. cbn [fold_left]. destruct Hin as [->|Hin]; [|now apply IH].
    rewrite Hu. destruct u as [|c s]; [now destruct (Hne _ Hu)|].
    apply (add_urls_keeps ts z x y). apply in_set_add. now left.
Qed.

(** X10.  For a template that reads [pre {z} a {x} b {y} post], with no
    opening brace in [pre], [a] and [b], the URL of a tile is the template
    with the three placeholders replaced by the decimal numbers;
    [post] is copied as it is, placeholders in it included (only the first
    occurrence of each is replaced). *)
Theorem tileURL_standard (pre a b post : string) (z x y : num) :
  no_open pre -> no_open a -> no_open b ->
  _tileURL
    (String.append pre (String.append "{z}" (String.append a
       (String.append "{x}" (String.append b (String.append "{y}" post))))))
    z x y
  = Some
    (String.append pre (String.append (num_to_string z) (String.append a
       (String.append (num_to_string x) (String.append b
          (String.append (num_to_string y) post)))))).
Proof.
  intros Hpre Ha Hb. unfold _tileURL.
  rewrite (includes_skip "{z}" pre) by apply includes_here.
  rewrite (includes_skip "{x}" pre)
    by (apply (includes_skip _ "{z}"), includes_skip, includes_here).
  rewrite (includes_skip "{y}" pre)
    by (apply (includes_skip _ "{z}"), includes_skip,
          (includes_skip _ "{x}"), includes_skip, includes_here).
  cbn [negb orb]. f_equal.
  rewrite (replace_first_here "z}" _ pre) by exact Hpre.
  rewrite <- (append_assoc (num_to_string z) a), <- (append_assoc pre).
  rewrite (replace_first_here "x}")
    by (apply no_open_append; [exact Hpre|];
        apply no_open_append; [apply no_open_num|exact Ha]).
  rewrite <- (append_assoc (num_to_string x) b),
          <- (append_assoc (String.append pre _)).
  rewrite (replace_first_here "y}").
  - now rewrite !append_assoc.
  - repeat apply no_open_append; auto using no_open_num.
Qed.


Lemma tileURL_standard_witness :
  _tileURL "https://x/{z}/{x}/{y}.pbf" (Int 12) (Int 1819) (Int 1603)
  = Some "https://x/12/1819/1603.pbf"%string.
Proof.
  apply (tileURL_standard "https://x/" "/" "/" ".pbf"
           (Int 12) (Int 1819) (Int 1603)); vm_compute; repeat split.
Defined.

End UrlFacts.

Section PredicateFacts.
Import Url.

Lemma prefix_split (p : string) :
  forall s, String.prefix p s = true ->
    s = String.append p (drop_chars (String.length p) s).
Proof.
  induction p as [|a p IH]; intros s H; [reflexivity|].
  destruct s as [|b s]; [discriminate|].
  cbn [String.prefix] in H. destruct (ascii_dec a b) as [<-|]; [|discriminate].
  change (String a s = String a (String.append p (drop_chars (String.length p) s))).
  f_equal. now apply IH.
Qed.

Lemma ext_here_spec (s : string) :
  ext_here s = true <->
  exists e r,
    In e ["pbf"; "mvt"; "png"; "jpg"; "jpeg"]%string /\
    s = String.append e r /\
    (r = EmptyString \/ exists q, r = String "?" q).
Proof.
  unfold ext_here. rewrite existsb_exists. split.
  - intros (e & He & H). apply andb_true_iff in H as [Hp Hr].
    exists e, (drop_chars (String.length e) s).
    split; [exact He|]. split; [now apply prefix_split|].
    destruct (drop_chars (String.length e) s) as [|c q]; [now left|].
    right. exists q. apply Ascii.eqb_eq in Hr. now subst.
  - intros (e & r & He & -> & Hr). exists e. split; [exact He|].
    rewrite prefix_append, drop_chars_append.
    destruct Hr as [->|[q ->]]; reflexivity.
Qed.

(** X11.  The default [shouldPrefetch] accepts exactly the URLs that hold,
    somewhere, a dot followed by one of [pbf], [mvt], [png], [jpg], [jpeg]
    and then either nothing more or a question mark: the extension must end
    the URL or be followed by a query. *)
Theorem default_shouldPrefetch_spec (url : string) :
  default_shouldPrefetch url = true <->
  exists s e r,
    In e ["pbf"; "mvt"; "png"; "jpg"; "jpeg"]%string /\
    url = String.append s (String "." (String.append e r)) /\
    (r = EmptyString \/ exists q, r = String "?" q).
Proof.
  split.
  - induction url as [|c url IH]; [discriminate|].
    cbn [default_shouldPrefetch]. intros H.
    apply orb_true_iff in H as [H|H].
    + apply andb_true_iff in H as [Hc He]. apply Ascii.eqb_eq in Hc. subst c.
      apply ext_here_spec in He as (e & r & He & -> & Hr).
      exists EmptyString, e, r. auto.
    + destruct (IH H) as (s & e & r & He & -> & Hr).
      exists (String c s), e, r. auto.
  - intros (s & e & r & He & -> & Hr).
    induction s as [|c s IH].
    + change (default_shouldPrefetch (String "." (String.append e r)) = true).
      cbn [default_shouldPrefetch].
      replace (ext_here (String.append e r)) with true; [reflexivity|].
      symmetry. apply ext_here_spec. exists e, r. auto.
    + change (default_shouldPrefetch
                (String c (String.append s (String "." (String.append e r))))
              = true).
      cbn [default_shouldPrefetch]. rewrite IH. apply orb_true_r.
Qed.

End PredicateFacts.

(** ** More on the template resolver *)

Section ResolverMore.
Import Resolver.

(** What one step of the loop adds to the log: nothing, or the lookup of a
    source with a URL, without inline tiles, that the cache does not hold. *)
Lemma resolve_source_step (fetch : remote) (st : rstate) (id : string)
    (src : source) :
  (r_lookups (resolve_source fetch st (id, src)) = r_lookups st \/
   exists url,
     r_lookups (resolve_source fetch st (id, src))
     = r_lookups st ++
       [Lookup id url (match fetch url with Some _ => true | None => false end)] /\
     src_url src = Some url /\ url <> EmptyString /\
     (src_tiles src = None \/ src_tiles src = Some []) /\
     r_cache st !! id = None) /\
  r_cache st ⊆ r_cache (resolve_source fetch st (id, src)).
Proof.
  unfold resolve_source.
  destruct (src_tiles src) as [[|t ts]|] eqn:Et; cbn [r_lookups r_cache];
    try (split; [now left|reflexivity]);
    (destruct (src_url src) as [[|c u]|] eqn:Eu;
       try (split; [now left|reflexivity]);
     destruct (r_cache st !! id) as [cached|] eqn:Ec;
       [split; [now left|reflexivity]|];
     destruct (fetch (String c u)) as [tj|] eqn:Ef; cbn [r_lookups r_cache];
     (split;
      [right; exists (String c u); rewrite Ef;
       repeat split; auto; discriminate
      |try reflexivity; now apply insert_subseteq])).
Qed.

Lemma resolve_sources_cache_mono (fetch : remote)
    (sources : list (string * source)) :
  forall st, r_cache st ⊆ r_cache (resolve_sources fetch sources st).
Proof.
  unfold resolve_sources.
  induction sources as [|[id src] sources IH]; intros st; [reflexivity|].
  cbn [fold_left]. etrans; [|apply IH].
  apply (resolve_source_step fetch st id src).
Qed.



(** A second pass over the sources, on a cache that holds what the first
    pass left, when no lookup of the first pass failed. *)
Lemma resolve_sources_again (fetch fetch' : remote)
    (sources : list (string * source)) :
  forall st st2 : rstate,
    (forall new,
       r_lookups (resolve_sources fetch sources st) = r_lookups st ++ new ->
       forall lk, In lk new -> lookup_ok lk = true) ->
    r_cache (resolve_sources fetch sources st) ⊆ r_cache st2 ->
    r_cache (resolve_sources fetch' sources st2) = r_cache st2 /\
    r_lookups (resolve_sources fetch' sources st2) = r_lookups st2 /\
    exists contrib,
      r_templates (resolve_sources fetch sources st)
      = r_templates st ++ contrib /\
      r_templates (resolve_sources fetch' sources st2)
      = r_templates st2 ++ contrib.
Proof.
  induction sources as [|[id src] sources IH]; intros st st2 Hok Hsub.
  - cbn. repeat split. exists []. now rewrite !app_nil_r.
  - change (resolve_sources fetch ((id, src) :: sources) st)
      with (resolve_sources fetch sources (resolve_source fetch st (id, src)))
      in *.
    change (resolve_sources fetch' ((id, src) :: sources) st2)
      with (resolve_sources fetch' sources (resolve_source fetch' st2 (id, src))).
    set (st1 := resolve_source fetch st (id, src)) in *.
    destruct (resolve_sources_lookups fetch sources st1) as (n2 & L2 & _ & _).
    destruct (resolve_source_lookups fetch st (id, src)) as (n1 & L1 & _ & _).
    fold st1 in L1.
    assert (Hok1 : forall lk, In lk n1 -> lookup_ok lk = true).
    { intros lk Hlk. apply (Hok (n1 ++ n2)).
      - now rewrite L2, L1, <- app_assoc.
      - apply in_or_app. now left. }
    assert (Hok2 : forall new,
      r_lookups (resolve_sources fetch sources st1) = r_lookups st1 ++ new ->
      forall lk, In lk new -> lookup_ok lk = true).
    { intros new Hnew lk Hlk. apply (Hok (n1 ++ new)).
      - now rewrite Hnew, L1, <- app_assoc.
      - apply in_or_app. now right. }
    assert (Hsub1 : r_cache st1 ⊆ r_cache st2).
    { etrans; [apply resolve_sources_cache_mono|exact Hsub]. }
    assert (Hstep : r_cache (resolve_source fetch' st2 (id, src)) = r_cache st2 /\
      r_lookups (resolve_source fetch' st2 (id, src)) = r_lookups st2 /\
      exists c1, r_templates st1 = r_templates st ++ c1 /\
        r_templates (resolve_source fetch' st2 (id, src))
        = r_templates st2 ++ c1).
    { unfold st1 in *. unfold resolve_source in *.
      destruct (src_tiles src) as [[|t ts]|];
        cbn [r_cache r_lookups r_templates] in *;
        try (repeat split; eexists; split; reflexivity);
        (destruct (src_url src) as [[|a u]|];
           try (repeat split; exists []; now rewrite !app_nil_r);
         destruct (r_cache st !! id) as [cached|] eqn:Ec;
           [rewrite (lookup_weaken _ _ _ _ Ec Hsub1);
            repeat split; eexists; split; reflexivity|];
         destruct (fetch (String a u)) as [tj|];
           cbn [r_cache r_lookups r_templates] in *;
           [rewrite (lookup_weaken _ (r_cache st2) id _
                       (lookup_insert_eq _ _ _) Hsub1);
            repeat split; eexists; split; reflexivity|];
         apply app_inv_head in L1; subst n1;
         specialize (Hok1 _ (or_introl eq_refl)); discriminate). }
    destruct Hstep as (Hc & Hl & c1 & Ht1 & Ht2).
    destruct (IH st1 (resolve_source fetch' st2 (id, src)) Hok2)
      as (Hc' & Hl' & c2 & Ht1' & Ht2').
    { now rewrite Hc. }
    split; [now rewrite Hc', Hc|]. split; [now rewrite Hl', Hl|].
    exists (c1 ++ c2). rewrite Ht1', Ht1, Ht2', Ht2, <- !app_assoc. auto.
Qed.

(** X13.  When no lookup of a resolution failed, resolving the same style
    again once that resolution is over, whatever the endpoints would answer
    now, makes no lookup and ends with the same cache and the same template
    list. *)
Theorem resolve_again_free (sources : list (string * source))
    (fetch fetch' : remote)
    (c : gmap string (list jsval)) (T : list string) :
  (forall lk, In lk (_resolveTemplates (Some sources) fetch c T).2 ->
     lookup_ok lk = true) ->
  _resolveTemplates (Some sources) fetch'
    (_resolveTemplates (Some sources) fetch c T).1.1
    (_resolveTemplates (Some sources) fetch c T).1.2
  = ((_resolveTemplates (Some sources) fetch c T).1.1,
     (_resolveTemplates (Some sources) fetch c T).1.2, []).
Proof.
  intros Hok. cbn [_resolveTemplates fst snd] in *.
  set (st1 := resolve_sources fetch sources (mkRState c [] [])) in *.
  destruct (resolve_sources_again fetch fetch' sources (mkRState c [] [])
              (mkRState (r_cache st1) [] []))
    as (Hc & Hl & contrib & Ht1 & Ht2).
  - intros new Hnew lk Hlk. apply Hok. fold st1 in Hnew.
    rewrite Hnew. exact Hlk.
  - reflexivity.
  - cbn [r_cache r_lookups r_templates app] in *. fold st1 in Ht1.
    now rewrite Hc, Hl, Ht2, Ht1.
Qed.

Lemma resolve_again_free_witness :
  _resolveTemplates (Some [("live"%string, mkSource None (Some Sample.live_url))])
    (fun _ => None)
    (_resolveTemplates (Some [("live"%string,
        mkSource None (Some Sample.live_url))]) Sample.net ∅ []).1.1
    (_resolveTemplates (Some [("live"%string,
        mkSource None (Some Sample.live_url))]) Sample.net ∅ []).1.2
  = ((_resolveTemplates (Some [("live"%string,
        mkSource None (Some Sample.live_url))]) Sample.net ∅ []).1.1,
     (_resolveTemplates (Some [("live"%string,
        mkSource None (Some Sample.live_url))]) Sample.net ∅ []).1.2, []).
Proof.
  apply (resolve_again_free
           [("live"%string, mkSource None (Some Sample.live_url))]
           Sample.net (fun _ => None) ∅ []).
  intros lk [<-|[]]. reflexivity.
Defined.

End ResolverMore.

(** ** More on the cycle and the lifecycle *)

Section SchedulerMore.
Import Coord TileSet Url Scheduler.

Lemma set_add_extends (u : string) (s : list string) :
  exists extra, set_add u s = s ++ extra.
Proof.
  unfold set_add. destruct (decide (u ∈ s)).
  - exists []. now rewrite app_nil_r.
  - now exists [u].
Qed.

Lemma add_urls_extends (templates : list string) (z x y : num) :
  forall urls, exists extra, add_urls templates z x y urls = urls ++ extra.
Proof.
  unfold add_urls. induction templates as [|t ts IH]; intros urls.
  - exists []. now rewrite app_nil_r.
  - cbn [fold_left].
    assert (H : exists e1,
      match _tileURL t z x y with
      | Some (String c u) => set_add (String c u) urls
      | _ => urls
      end = urls ++ e1).
    { destruct (_tileURL t z x y) as [[|c u]|];
        try (exists []; now rewrite app_nil_r).
      apply set_add_extends. }
    destruct H as [e1 ->]. destruct (IH (urls ++ e1)) as [e2 ->].
    exists (e1 ++ e2). now rewrite app_assoc.
Qed.

Lemma parent_phase_extends (o : opts) (templates : list string) (z : Z)
    (v : visible) (urls : list string) :
  exists extra, (parent_phase o templates z v urls).2 = urls ++ extra.
Proof.
  unfold parent_phase. rewrite for_depths_fold.
  apply (fold_left_inv (fun a : list string * list string =>
    exists extra, a.2 = urls ++ extra));
    [|exists []; cbn; now rewrite app_nil_r].
  intros acc d _ [e0 He0]. unfold depth_body.
  apply (fold_left_inv (fun a : list string * list string =>
    exists extra, a.2 = urls ++ extra)); [|now exists e0].
  intros [ps us] key _ [e1 He1]. cbn [snd] in *. subst us.
  destruct (add_urls_extends templates (part 0 (split_slash key))
              (part 1 (split_slash key)) (part 2 (split_slash key))
              (urls ++ e1)) as [e2 ->].
  exists (e1 ++ e2). now rewrite app_assoc.
Qed.

(** X14.  The URLs of the neighbour block come first in the list of a
    cycle, in the order of the enumeration, and the parent block only
    appends: the cap cuts the parents' URLs before it cuts a neighbour's.
    When the cap does not exceed the number of accepted neighbour URLs, the
    list is made of neighbour URLs only. *)
Theorem neighbours_before_parents (o : opts) (templates : list string)
    (e : mapenv) :
  exists extra,
    (candidates o templates e).2
    = slice0 (maxRequestsPerMove o)
        (List.filter (shouldPrefetch o)
           ((neighbor_phase o templates (clampZoom (env_floorZoom e))
               (_visibleTileRange (env_vxMinX e) (env_vxMaxX e)
                  (env_vyMinY e) (env_vyMaxY e)
                  (clampZoom (env_floorZoom e)))).2 ++ extra)) /\
    (0 <= maxRequestsPerMove o
       <= Z.of_nat (length (List.filter (shouldPrefetch o)
            (neighbor_phase o templates (clampZoom (env_floorZoom e))
               (_visibleTileRange (env_vxMinX e) (env_vxMaxX e)
                  (env_vyMinY e) (env_vyMaxY e)
                  (clampZoom (env_floorZoom e)))).2)) ->
     (candidates o templates e).2
     = firstn (Z.to_nat (maxRequestsPerMove o))
         (List.filter (shouldPrefetch o)
            (neighbor_phase o templates (clampZoom (env_floorZoom e))
               (_visibleTileRange (env_vxMinX e) (env_vxMaxX e)
                  (env_vyMinY e) (env_vyMaxY e)
                  (clampZoom (env_floorZoom e)))).2)).
Proof.
  unfold candidates.
  set (z := clampZoom (env_floorZoom e)).
  set (v := _visibleTileRange _ _ _ _ z).
  destruct (neighbor_phase o templates z v) as [ns urls1]. cbn [snd].
  destruct (parent_phase_extends o templates z v urls1) as [extra He].
  destruct (parent_phase o templates z v urls1) as [ps urls].
  cbn [fst snd] in *. subst urls. exists extra. split; [reflexivity|].
  intros Hcap. unfold slice0.
  replace (maxRequestsPerMove o <? 0) with false
    by (symmetry; apply Z.ltb_ge; lia).
  rewrite List.filter_app, length_app.
  replace (Z.to_nat (Z.min (maxRequestsPerMove o) _))
    with (Z.to_nat (maxRequestsPerMove o)) by lia.
  rewrite firstn_app.
  replace (Z.to_nat (maxRequestsPerMove o)
           - length (List.filter (shouldPrefetch o) urls1))%nat
    with 0%nat by lia.
  cbn [firstn]. now rewrite app_nil_r.
Qed.

Lemma neighbours_before_parents_witness :
  (candidates (mkOpts 1 1 120 3 default_shouldPrefetch true)
     [Sample.tmpl] Sample.env).2
  = firstn 3 (List.filter default_shouldPrefetch
      (neighbor_phase (mkOpts 1 1 120 3 default_shouldPrefetch true)
         [Sample.tmpl] 12 (_visibleTileRange 1819 1819 1603 1603 12)).2).
Proof.
  destruct (neighbours_before_parents
              (mkOpts 1 1 120 3 default_shouldPrefetch true)
              [Sample.tmpl] Sample.env) as (extra & _ & H).
  apply H. vm_compute. split; discriminate.
Defined.



Lemma issue_urls (l : list string) :
  forall (S : gset string) (v : string),
    In v (map req_url (issue l S).2) <-> In v l /\ v ∉ S.
Proof.
  induction l as [|u l IH]; intros S v; cbn [issue].
  - cbn. tauto.
  - destruct (decide (u ∈ S)) as [Hin|Hin].
    + rewrite IH. cbn [In]. split; [tauto|].
      intros [[<-|H] Hv]; [contradiction|auto].
    + specialize (IH ({[u]} ∪ S) v).
      destruct (issue l ({[u]} ∪ S)) as [S' reqs]. cbn [snd map In] in *.
      rewrite IH, elem_of_union, elem_of_singleton.
      destruct (decide (u = v)) as [->|Hne]; [tauto|].
      split; [intros [H|[H1 H2]]; [contradiction|tauto]|].
      intros [[H|H] Hv]; [contradiction|]. right. split; [exact H|].
      intros [H'|H']; [congruence|contradiction].
Qed.

Lemma settle_all_elem (how : string -> outcome) (reqs : list request) :
  forall (S : gset string) (v : string),
    v ∈ settle_all how reqs S <-> v ∈ S /\ ~ In v (map req_url reqs).
Proof.
  unfold settle_all.
  induction reqs as [|q reqs IH]; intros S v; cbn [fold_left map In].
  - tauto.
  - rewrite IH.
    assert (Hs : v ∈ settle (req_url q) (how (req_url q)) S
                 <-> v ∈ S /\ req_url q <> v).
    { destruct (how (req_url q)); cbn;
        rewrite elem_of_difference, elem_of_singleton;
        split; intros [H1 H2]; split; auto. }
    rewrite Hs. tauto.
Qed.

(** X16.  When all the fetches that a loop issued have settled, fulfilled
    or rejected and in any mix, the in-flight set is again what it was
    before the loop: the set does not grow over time. *)
Theorem settle_all_restores (how : string -> outcome) (l : list string)
    (S : gset string) :
  settle_all how (issue l S).2 (issue l S).1 = S.
Proof.
  apply set_eq. intros v.
  rewrite settle_all_elem, issue_inflight, issue_urls.
  destruct (decide (v ∈ S)); tauto.
Qed.

End SchedulerMore.

(** ** Switched-off blocks and the depth option *)

Section OptionFacts.
Import Coord TileSet Url Scheduler.

Lemma toInt32_small (v : Z) : - 2 ^ 31 <= v <= 2 ^ 31 - 1 -> toInt32 v = v.
Proof.
  intros Hv. unfold toInt32. change (2 ^ 31) with 2147483648 in *.
  change (2 ^ 32) with 4294967296.
  destruct (Z_lt_le_dec v 0) as [Hneg|Hpos].
  - replace (v mod 4294967296) with (v + 4294967296).
    + destruct (2147483648 <=? v + 4294967296) eqn:E; [lia|].
      apply Z.leb_gt in E. lia.
    + rewrite <- (Z.mod_add v 1 4294967296) by lia.
      symmetry. apply Z.mod_small. lia.
  - rewrite Z.mod_small by lia.
    destruct (2147483648 <=? v) eqn:E; [apply Z.leb_le in E; lia|reflexivity].
Qed.

(** X18.  The number of ancestor levels is the option [zoomOutLevels]
    truncated to 32 bits and floored at zero: it is the option itself from
    0 to [2^31 - 1], zero for a negative option down to [-2^31], and it
    wraps beyond ([2^32] more levels are no more levels).  With an option
    [N] from 0 to [2^31 - 1] the loop runs its body on the depths
    [1 .. min(N, z)]. *)
Theorem levels_of_option (o : opts) (z : Z) :
  0 <= levels_of o <= 2 ^ 31 - 1 /\
  (0 <= zoomOutLevels o <= 2 ^ 31 - 1 ->
   levels_of o = zoomOutLevels o /\
   for_depths z (fun d (ran : list Z) => ran ++ [d])
     (Z.to_nat (levels_of o)) 1 []
   = for_range 1 (Z.min (zoomOutLevels o) z)) /\
  (- 2 ^ 31 <= zoomOutLevels o <= 0 -> levels_of o = 0) /\
  (forall v, toInt32 (v + 2 ^ 32) = toInt32 v).
Proof.
  assert (Hr : forall v, - 2 ^ 31 <= toInt32 v <= 2 ^ 31 - 1).
  { intros v. unfold toInt32. change (2 ^ 31) with 2147483648.
    change (2 ^ 32) with 4294967296.
    pose proof (Z.mod_pos_bound v 4294967296 ltac:(lia)) as Hm.
    destruct (2147483648 <=? v mod 4294967296) eqn:E;
      [apply Z.leb_le in E|apply Z.leb_gt in E]; lia. }
  split; [|split; [|split]].
  - unfold levels_of. specialize (Hr (zoomOutLevels o)). lia.
  - intros Hv.
    assert (Hl : levels_of o = zoomOutLevels o).
    { unfold levels_of. rewrite toInt32_small by lia. lia. }
    split; [exact Hl|].
    rewrite for_depths_fold, fold_left_snoc, Hl. cbn [app].
    f_equal. lia.
  - intros Hv. unfold levels_of. rewrite toInt32_small by lia. lia.
  - intros v. unfold toInt32.
    replace (v + 2 ^ 32) with (v + 1 * 2 ^ 32) by lia.
    now rewrite Z.mod_add by (change (2 ^ 32) with 4294967296; lia).
Qed.

Lemma levels_of_option_witness :
  levels_of default_opts = zoomOutLevels default_opts /\
  for_depths 12 (fun d (ran : list Z) => ran ++ [d])
    (Z.to_nat (levels_of default_opts)) 1 []
  = for_range 1 (Z.min (zoomOutLevels default_opts) 12).
Proof.
  apply (proj1 (proj2 (levels_of_option default_opts 12))).
  vm_compute. split; discriminate.
Defined.

(** X19.  With no ring ([neighbors <= 0]) and no ancestor level (the level
    count is zero, or the zoom is 0 or less so that no ancestor exists), a
    cycle has no key, no URL and no fetch, whatever the templates, and the
    in-flight set stays as it is; so does a cycle that ends without a
    template. *)
Theorem nothing_to_prefetch (o : opts) (e : mapenv) (p : prefetcher) :
  (neighbors o <= 0 -> levels_of o = 0 \/ env_floorZoom e <= 0 ->
   (forall templates, candidates o templates e = ([], [], [])) /\
   rep_requests (_prefetchNow o e p).2 = [] /\
   _inflight (_prefetchNow o e p).1 = _inflight p) /\
  (_templates (_prefetchNow o e p).1 = [] ->
   rep_list (_prefetchNow o e p).2 = [] /\
   rep_requests (_prefetchNow o e p).2 = [] /\
   _inflight (_prefetchNow o e p).1 = _inflight p).
Proof.
  assert (Hpre : exists p1 lk,
    match _templates p with [] => resolve e p | _ :: _ => (p, []) end = (p1, lk)
    /\ _inflight p1 = _inflight p).
  { destruct (_templates p).
    - exists (resolve e p).1, (resolve e p).2.
      split; [now destruct (resolve e p)|apply resolve_inflight].
    - exists p, []. auto. }
  destruct Hpre as (p1 & lk & Hp1 & Hin).
  split.
  - intros Hn Hl.
    assert (Hc : forall templates, candidates o templates e = ([], [], [])).
    { intros templates. unfold candidates, neighbor_phase.
      replace (0 <? neighbors o) with false by (symmetry; apply Z.ltb_ge; lia).
      unfold parent_phase. rewrite for_depths_fold.
      rewrite for_range_empty.
      - cbn [fold_left List.filter]. unfold slice0. now rewrite firstn_nil.
      - assert (0 <= levels_of o) by (unfold levels_of; lia).
        unfold clampZoom. destruct Hl; lia. }
    split; [exact Hc|].
    unfold _prefetchNow. rewrite Hp1.
    destruct (_templates p1) as [|t ts]; [cbn; auto|].
    rewrite Hc. cbn. auto.
  - unfold _prefetchNow. rewrite Hp1.
    destruct (_templates p1) as [|t ts] eqn:E; [cbn; auto|].
    destruct (candidates o (t :: ts) e) as [[ns ps] cands].
    destruct (issue cands (_inflight p1)) as [S' reqs]. cbn.
    rewrite E. discriminate.
Qed.

Lemma nothing_to_prefetch_witness :
  (forall templates,
     candidates (mkOpts 0 0 120 160 default_shouldPrefetch true) templates
       Sample.env = ([], [], [])) /\
  rep_requests (_prefetchNow (mkOpts 0 0 120 160 default_shouldPrefetch true)
                  Sample.env Sample.warm).2 = [] /\
  _inflight (_prefetchNow (mkOpts 0 0 120 160 default_shouldPrefetch true)
               Sample.env Sample.warm).1 = _inflight Sample.warm.
Proof.
  apply (proj1 (nothing_to_prefetch
                  (mkOpts 0 0 120 160 default_shouldPrefetch true)
                  Sample.env Sample.warm)).
  - vm_compute. discriminate.
  - left. reflexivity.
Defined.

End OptionFacts.

(** ** The re-entrancy guard of [styledata] *)

Section GuardFacts.
Import Scheduler.







End GuardFacts.

(** ** The cap on the requests of a cycle *)

Section CapFacts.
Import Coord TileSet Url Scheduler.







End CapFacts.

(** ** Resolutions that overlap, and [destroy] *)

Section AsyncFacts.
Import Resolver Scheduler.

(** When every fetch settles at once, the suspended loop ends as
    [resolve_sources] does: [Scheduler] is the machine below with no event
    between the start of a fetch and its settling. *)
Lemma finish_with_resolve_sources (fetch : remote)
    (entries : list (string * source)) :
  forall (fuel : nat) (c : gmap string (list jsval)) (t : list jsval)
         (L : list lookup),
    (length entries < fuel)%nat ->
    Async.finish_with fetch fuel c (Async.advance c entries t) L
    = Some (r_cache (resolve_sources fetch entries (mkRState c t L)),
            r_templates (resolve_sources fetch entries (mkRState c t L)),
            r_lookups (resolve_sources fetch entries (mkRState c t L))).
Proof.
  unfold resolve_sources.
  induction entries as [|[id src] rest IH]; intros fuel c t L Hf.
  - destruct fuel; reflexivity.
  - cbn [Async.advance fold_left resolve_source r_cache r_templates r_lookups].
    cbn [length] in Hf.
    destruct (src_tiles src) as [[|x xs]|].
    + destruct (src_url src) as [[|a u]|].
      * apply IH; lia.
      * destruct (c !! id) as [cached|]; [apply IH; lia|].
        destruct fuel as [|fuel]; [lia|].
        cbn [Async.finish_with Async.after_reply].
        destruct (fetch (String a u)) as [tj|]; apply IH; lia.
      * apply IH; lia.
    + apply IH; lia.
    + destruct (src_url src) as [[|a u]|].
      * apply IH; lia.
      * destruct (c !! id) as [cached|]; [apply IH; lia|].
        destruct fuel as [|fuel]; [lia|].
        cbn [Async.finish_with Async.after_reply].
        destruct (fetch (String a u)) as [tj|]; apply IH; lia.
      * apply IH; lia.
Qed.

(** A resolution whose fetches settle at once, on a machine with no other
    task, leaves the object as [Scheduler.resolve] does, followed by what
    waited for it. *)
Lemma drive_settle_now (o : opts) (k : Async.after) (e : mapenv)
    (entries : list (string * source)) :
  forall (fuel : nat) (p : prefetcher) (t : list jsval) (L : list lookup)
         (s : nat),
    (length entries < fuel)%nat ->
    (Async.settle_now o e fuel
       (Async.drive o k e (Async.advance (_tilejsonCache p) entries t)
          (Async.mkMachine p [] s)).1).1
    = Async.mkMachine
        (Async.continue o k e
           (set_templates p
              (r_cache (resolve_sources (env_remote e) entries
                          (mkRState (_tilejsonCache p) t L)))
              (strings_of
                 (r_templates (resolve_sources (env_remote e) entries
                                 (mkRState (_tilejsonCache p) t L)))))).1 [] s.
Proof.
  unfold resolve_sources.
  assert (Hawait : forall id url rest fuel p t L s,
    (forall fuel' p' t' L' s', (length rest < fuel')%nat ->
       (Async.settle_now o e fuel'
          (Async.drive o k e (Async.advance (_tilejsonCache p') rest t')
             (Async.mkMachine p' [] s')).1).1
       = Async.mkMachine
           (Async.continue o k e
              (set_templates p'
                 (r_cache (fold_left (resolve_source (env_remote e)) rest
                             (mkRState (_tilejsonCache p') t' L')))
                 (strings_of
                    (r_templates (fold_left (resolve_source (env_remote e)) rest
                                    (mkRState (_tilejsonCache p') t' L')))))).1
           [] s') ->
    (S (length rest) < fuel)%nat ->
    (Async.settle_now o e fuel
       (Async.drive o k e (Async.Awaiting id url rest t)
          (Async.mkMachine p [] s)).1).1
    = Async.mkMachine
        (Async.continue o k e
           (set_templates p
              (r_cache (fold_left (resolve_source (env_remote e)) rest
                 (match env_remote e url with
                  | Some tj =>
                      mkRState
                        (<[id := match tj_tiles tj with
                                 | Some l => l | None => [] end]>
                           (_tilejsonCache p))
                        (t ++ match tj_tiles tj with
                              | Some l => l | None => [] end)
                        (L ++ [Lookup id url true])
                  | None =>
                      mkRState (_tilejsonCache p) t (L ++ [Lookup id url false])
                  end)))
              (strings_of
                 (r_templates (fold_left (resolve_source (env_remote e)) rest
                 (match env_remote e url with
                  | Some tj =>
                      mkRState
                        (<[id := match tj_tiles tj with
                                 | Some l => l | None => [] end]>
                           (_tilejsonCache p))
                        (t ++ match tj_tiles tj with
                              | Some l => l | None => [] end)
                        (L ++ [Lookup id url true])
                  | None =>
                      mkRState (_tilejsonCache p) t (L ++ [Lookup id url false])
                  end)))))).1 [] s).
  { intros id url rest fuel p t L s IH Hf.
    destruct fuel as [|fuel]; [lia|].
    cbn [Async.drive Async.m_obj Async.m_tasks Async.m_stale fst app
         Async.settle_now
         Async.t_url Async.step nth_error Async.t_id Async.t_rest
         Async.t_templates Async.t_after Async.remove_nth Async.after_reply].
    destruct (env_remote e url) as [tj|]; cbn [Async.after_reply].
    - specialize (IH fuel
        (set_templates p
           (<[id := match tj_tiles tj with Some l => l | None => [] end]>
              (_tilejsonCache p)) (_templates p))
        (t ++ match tj_tiles tj with Some l => l | None => [] end)
        (L ++ [Lookup id url true]) s ltac:(lia)).
      cbn [_tilejsonCache set_templates] in IH.
      destruct (Async.drive o k e _ _) as [m1 a1]. cbn [fst] in IH.
      destruct (Async.settle_now o e fuel m1) as [m2 a2]. cbn [fst] in *.
      exact IH.
    - specialize (IH fuel
        (set_templates p (_tilejsonCache p) (_templates p))
        t (L ++ [Lookup id url false]) s ltac:(lia)).
      cbn [_tilejsonCache set_templates] in IH.
      destruct (Async.drive o k e _ _) as [m1 a1]. cbn [fst] in IH.
      destruct (Async.settle_now o e fuel m1) as [m2 a2]. cbn [fst] in *.
      exact IH. }
  induction entries as [|[id src] rest IH]; intros fuel p t L s Hf.
  - cbn [Async.advance fold_left Async.drive Async.m_obj Async.m_tasks
         Async.m_stale r_cache r_templates].
    destruct (Async.continue o k e _) as [p1 a1].
    destruct fuel; reflexivity.
  - cbn [Async.advance fold_left resolve_source r_cache r_templates r_lookups].
    cbn [length] in Hf.
    destruct (src_tiles src) as [[|x xs]|].
    + destruct (src_url src) as [[|a u]|].
      * apply IH; lia.
      * destruct (_tilejsonCache p !! id) as [cached|]; [apply IH; lia|].
        apply Hawait; [exact IH|lia].
      * apply IH; lia.
    + apply IH; lia.
    + destruct (src_url src) as [[|a u]|].
      * apply IH; lia.
      * destruct (_tilejsonCache p !! id) as [cached|]; [apply IH; lia|].
        apply Hawait; [exact IH|lia].
      * apply IH; lia.
Qed.

Lemma start_settle_now (o : opts) (k : Async.after) (e : mapenv)
    (p : prefetcher) (fuel s : nat) :
  (length (default [] (env_style e)) < fuel)%nat ->
  (Async.settle_now o e fuel (Async.start o k e (Async.mkMachine p [] s)).1).1
  = Async.mkMachine (Async.continue o k e (resolve e p).1).1 [] s.
Proof.
  intros Hf. unfold Async.start, resolve, _resolveTemplates.
  cbn [Async.m_obj Async.m_tasks Async.m_stale].
  destruct (env_style e) as [entries|]; cbn [default] in Hf.
  - rewrite (drive_settle_now o k e entries fuel p [] [] s Hf). reflexivity.
  - cbn [fst].
    replace (set_templates p (_tilejsonCache p) (_templates p)) with p
      by (destruct p; reflexivity).
    destruct (Async.continue o k e p) as [p1 a1].
    destruct fuel; reflexivity.
Qed.

(** [Scheduler.step] is [Async.step] followed by the settling of every
    TileJSON fetch it started, when no resolution was waiting before, no
    listener of an earlier [_bind] is on the map and [_ensureDebugLayers]
    had no layer to move.  A second [_bind] leaves the [styledata] listener
    of the first on the map, which [Scheduler] does not count. *)
Lemma scheduler_step_settled (o : opts) (e : mapenv) (p : prefetcher)
    (fuel : nat) :
  (length (default [] (env_style e)) < fuel)%nat ->
  (Async.settle_now o e fuel
     (Async.step o (Async.StyleData e) (Async.mkMachine p [] 0)).1).1
  = Async.mkMachine (step o (StyleData e) p).1 [] 0 /\
  (Async.settle_now o e fuel
     (Async.step o (Async.Bind e false) (Async.mkMachine p [] 0)).1).1
  = Async.mkMachine (step o (Bind e) p).1 []
      (if on_styledata p then 1 else 0) /\
  (Async.settle_now o e fuel
     (Async.step o (Async.TimerFires e) (Async.mkMachine p [] 0)).1).1
  = Async.mkMachine (step o (TimerFires e) p).1 [] 0.
Proof.
  intros Hf. repeat split.
  - cbn [Async.step step Async.m_obj]. unfold Async.with_obj.
    cbn [Async.m_tasks Async.m_stale Nat.eqb negb]. rewrite orb_false_r.
    destruct (on_styledata p && negb (_styledataGuard p)).
    + rewrite start_settle_now by exact Hf.
      destruct (resolve e _) as [p1 lk]. reflexivity.
    + destruct fuel; reflexivity.
  - cbn [Async.step step Async.m_obj Async.m_tasks Async.m_stale].
    rewrite orb_false_r.
    rewrite start_settle_now by exact Hf.
    destruct (resolve e _) as [p1 lk]. reflexivity.
  - cbn [Async.step step Async.m_obj]. unfold Async.with_obj.
    cbn [Async.m_tasks Async.m_stale].
    destruct (_debounceTimer p); [|destruct fuel; reflexivity].
    unfold _prefetchNow.
    destruct (_templates p) as [|t0 ts] eqn:Et.
    + replace (_templates (set_timer p false)) with (@nil string)
        by (symmetry; exact Et).
      rewrite start_settle_now by exact Hf.
      destruct (resolve e _) as [p1 lk]. cbn [Async.continue fst].
      unfold Async.cycle.
      destruct (_templates p1); [reflexivity|].
      destruct (candidates o _ e) as [[ns ps] cands].
      destruct (issue cands (_inflight p1)) as [S' reqs]. reflexivity.
    + replace (_templates (set_timer p false)) with (t0 :: ts)
        by (symmetry; exact Et).
      unfold Async.cycle.
      replace (_templates (set_timer p false)) with (t0 :: ts)
        by (symmetry; exact Et).
      destruct (candidates o _ e) as [[ns ps] cands].
      destruct (issue cands _) as [S' reqs].
      destruct fuel; reflexivity.
Qed.

(** C8: the code looks a source up more than once.  A [styledata] event
    that arrives while the resolution started by [_bind] still waits for
    the TileJSON of [live] starts a second fetch of it, though both fetches
    return the document; this holds whether or not [_ensureDebugLayers]
    raised the guard in [_bind], once a frame has passed.  And the source
    [dead], whose fetch fails, is fetched again by the next resolution,
    the first one being over: nothing records a failed lookup. *)
Theorem tilejson_looked_up_twice :
  (forall moved,
     Async.lookups_of "live"
       (Async.run default_opts
          [Async.Bind Sample.live_env moved; Async.AnimationFrame;
           Async.StyleData Sample.live_env;
           Async.LookupSettles 0 (Some Sample.live_doc) Sample.live_env;
           Async.LookupSettles 0 (Some Sample.live_doc) Sample.live_env]
          Async.init).2 = 2%nat) /\
  Async.m_tasks
    (Async.run default_opts
       [Async.Bind Sample.live_env false; Async.StyleData Sample.live_env]
       Async.init).1
  = [Async.mkTask "live" Sample.live_url [] [] Async.ThenMoveEnd;
     Async.mkTask "live" Sample.live_url [] [] Async.ThenNothing] /\
  Async.lookups_of "dead"
    (Async.run default_opts
       [Async.Bind Sample.dead_env false;
        Async.LookupSettles 0 None Sample.dead_env;
        Async.AnimationFrame;
        Async.StyleData Sample.dead_env;
        Async.LookupSettles 0 None Sample.dead_env]
       Async.init).2 = 2%nat /\
  Async.m_tasks
    (Async.run default_opts
       [Async.Bind Sample.dead_env false;
        Async.LookupSettles 0 None Sample.dead_env]
       Async.init).1 = [].
Proof.
  split; [intros [|]; vm_compute; reflexivity|].
  repeat split; vm_compute; reflexivity.
Qed.






End AsyncFacts.
